(** * Video analyzer: chat front end and orchestration core

    The first part embeds the React/Tauri front end
    ([frontend/src/grpcClient.ts], [components/ChatWindow.tsx],
    [components/UploadPanel.tsx]).  The second part is the orchestration
    core (Task Store, Agent Registry, Agent Manager), whose Python sources
    are not part of the tree at hand and which is therefore modelled from
    the written specification. *)

From Stdlib Require Import NArith Ascii String DecimalString.
From stdpp Require Import base decidable option list strings sorting relations.

Local Open Scope N_scope.
Local Open Scope list_scope.

(* ===================================================================== *)
(** ** JavaScript strings *)
(* ===================================================================== *)

Module JS.

(** A JavaScript string is a sequence of UTF-16 code units. *)
Abbreviation jsstring := (list N).

Definition code_unit (a : ascii) : N := N_of_ascii a.

(** An ASCII literal of the source text. *)
Definition lit (s : string) : jsstring := List.map code_unit (list_ascii_of_string s).

(** [ToString] of a non-negative integer ([""+Date.now()]). *)
Definition number_to_string (n : N) : jsstring :=
  lit (NilEmpty.string_of_uint (N.to_uint n)).

(** String concatenation [a + b]. *)
Definition concat (a b : jsstring) : jsstring := a ++ b.

(** Truthiness of a string value: only the empty string is falsy. *)
Definition truthy (s : jsstring) : bool :=
  match s with [] => false | _ :: _ => true end.

(** ECMAScript [WhiteSpace] and [LineTerminator] code points, the
    characters stripped by [String.prototype.trim]. *)
Definition is_trim_space (c : N) : bool :=
  (c =? 0x0009) || (c =? 0x000A) || (c =? 0x000B) || (c =? 0x000C) ||
  (c =? 0x000D) || (c =? 0x0020) || (c =? 0x00A0) || (c =? 0x1680) ||
  ((0x2000 <=? c) && (c <=? 0x200A)) ||
  (c =? 0x2028) || (c =? 0x2029) || (c =? 0x202F) || (c =? 0x205F) ||
  (c =? 0x3000) || (c =? 0xFEFF).

Fixpoint trim_start (s : jsstring) : jsstring :=
  match s with
  | [] => []
  | c :: rest => if is_trim_space c then trim_start rest else s
  end.

Definition trim_end (s : jsstring) : jsstring := rev (trim_start (rev s)).

(** [s.trim()] *)
Definition trim (s : jsstring) : jsstring := trim_end (trim_start s).

(** A string made of white space only (the empty string included). *)
Definition blank (s : jsstring) : bool := forallb is_trim_space s.

(** *** [btoa] *)

Definition b64_alphabet : list N :=
  Eval cbv in
    lit "ABCDEFGHIJKLMNOPQRSTUVWXYZabcdefghijklmnopqrstuvwxyz0123456789+/".

Definition b64_char (i : N) : N := nth (N.to_nat i) b64_alphabet 0.

Definition pad : N := 61. (* '=' *)

(** Base64 of a sequence of octets, three at a time, with [=] padding. *)
Fixpoint base64 (bytes : list N) : jsstring :=
  match bytes with
  | [] => []
  | [a] =>
      [b64_char (N.shiftr a 2);
       b64_char (N.shiftl (N.land a 3) 4);
       pad; pad]
  | [a; b] =>
      [b64_char (N.shiftr a 2);
       b64_char (N.lor (N.shiftl (N.land a 3) 4) (N.shiftr b 4));
       b64_char (N.shiftl (N.land b 15) 2);
       pad]
  | a :: b :: c :: rest =>
      b64_char (N.shiftr a 2)
      :: b64_char (N.lor (N.shiftl (N.land a 3) 4) (N.shiftr b 4))
      :: b64_char (N.lor (N.shiftl (N.land b 15) 2) (N.shiftr c 6))
      :: b64_char (N.land c 63)
      :: base64 rest
  end.

Inductive exn := RangeError | InvalidCharacterError | SyntaxError | TypeError.

(** [btoa(s)]: every code unit has to be a Latin-1 character. *)
Definition btoa (s : jsstring) : exn + jsstring :=
  if forallb (fun c => c <? 256) s then inr (base64 s)
  else inl InvalidCharacterError.

(** [String.fromCharCode(...bytes)]: the spread passes every element as
    an argument of its own, and a call with more arguments than the
    engine accepts ([max_args]) throws a [RangeError]. *)
Definition fromCharCode_spread (max_args : N) (bytes : list N) : exn + jsstring :=
  if N.of_nat (length bytes) <=? max_args
  then inr (List.map (fun b => N.land b 0xFFFF) bytes)
  else inl RangeError.

End JS.


(* ===================================================================== *)
(** ** The Tauri runtime seen from the front end *)
(* ===================================================================== *)

Module Tauri.
Import JS.

(** Values that cross the [invoke] boundary or are passed as arguments. *)
Inductive callback := NoOp.

Inductive jsval :=
| VUndefined
| VString (s : jsstring)
| VFunction (f : callback).

Definition truthy_val (v : jsval) : bool :=
  match v with
  | VUndefined => false
  | VString s => truthy s
  | VFunction _ => true
  end.

Definition args := list (string * jsval).

(** Who is listening on an event: the chat window's own handler, or the
    wrapper that [sendMessageAndStream] installs around its [onChunk]. *)
Inductive listener :=
| ChatWindowListener
| ClientListener (onChunk : jsval).

Inductive event :=
| ESetMessages
| ESetInput (s : jsstring)
| ESetProgress (p : N)
| ESetUploading (b : bool)
| ESetTimeout (ms : N)
| EListen (name : string) (id : nat)
| EUnlisten (id : nat)
| EInvoke (cmd : string) (a : args)
| EConsoleError.

(** The runtime: registered listeners, the order in which things
    happened, and the state behind the commands ([B]). *)
Record world (B : Type) := World {
  listeners : list (nat * (string * listener));
  next_listener : nat;
  trace : list event;
  backend : B
}.
Arguments World {B}.
Arguments listeners {B}.
Arguments next_listener {B}.
Arguments trace {B}.
Arguments backend {B}.

Section Runtime.
Context {B : Type}.
(** What a command does to the state behind it, and the [path] its
    response carries; [None] is a rejected promise. *)
Variable command : string -> args -> B -> B * option jsstring.

Definition log (e : event) (w : world B) : world B :=
  World (listeners w) (next_listener w) (trace w ++ [e]) (backend w).

(** [listen(name, handler)] resolves to the function that removes the
    handler again; it is identified by the listener's number. *)
Definition listen (name : string) (l : listener) (w : world B) : nat * world B :=
  let id := next_listener w in
  (id, World (listeners w ++ [(id, (name, l))]) (S id)
             (trace w ++ [EListen name id]) (backend w)).

Definition unlisten (id : nat) (w : world B) : world B :=
  World (List.filter (fun e => negb (Nat.eqb (fst e) id)) (listeners w))
        (next_listener w) (trace w ++ [EUnlisten id]) (backend w).

Definition invoke (cmd : string) (a : args) (w : world B) : option jsstring * world B :=
  let '(b, r) := command cmd a (backend w) in
  (r, World (listeners w) (next_listener w) (trace w ++ [EInvoke cmd a]) b).

End Runtime.
End Tauri.

(* ===================================================================== *)
(** ** grpcClient.ts *)
(* ===================================================================== *)

Module GrpcClient.
Import JS Tauri.

Section Client.
Context {B : Type}.
Variable command : string -> args -> B -> B * option jsstring.

(** [saveUploadedFile(base64, filename)]: the [path] of the response, or
    [None] when the command rejects. *)
Definition saveUploadedFile (base64 filename : jsval) (w : world B)
  : option jsstring * world B :=
  invoke command "save_uploaded_file"
         [("base64_data", base64); ("filename", filename)]%string w.

(** [sendMessageAndStream(conversationId, sender, text, onChunk?)].
    Parameters are bound by position, as JavaScript does.  The result is
    [false] when the command rejects, in which case the listener stays
    registered (there is no [finally]). *)
Definition sendMessageAndStream (conversationId sender text onChunk : jsval)
           (w : world B) : bool * world B :=
  let '(un, w1) := listen "stream_chunk" (ClientListener onChunk) w in
  let '(r, w2) :=
    invoke command "send_message_and_stream"
           [("conversation_id", conversationId); ("sender", sender);
            ("text", text)]%string w1 in
  match r with
  | Some _ => (true, unlisten un w2)
  | None => (false, w2)
  end.

Definition getHistory (conversationId : jsval) (w : world B)
  : option jsstring * world B :=
  invoke command "get_history" [("conversation_id", conversationId)]%string w.

End Client.
End GrpcClient.

(* ===================================================================== *)
(** ** components/ChatWindow.tsx *)
(* ===================================================================== *)

Module ChatWindow.
Import JS Tauri.

(** An element of the [messages] array.  [id] and [text] may be absent
    ([undefined]); [__partial_agent] is the truthiness of that field. *)
Record message := Message {
  id : option jsstring;
  sender : jsstring;
  text : option jsstring;
  __partial_agent : bool
}.

(** A parsed stream payload: the fields the chunk carries. *)
Record chunk := Chunk {
  partial_text : option jsstring;
  progress : option N;
  final_message : option message   (* [payload.message] *)
}.

(** [e.payload]: text on which [JSON.parse] throws, the text [null]
    (parsed, but reading a field of it throws), or a chunk.  Any other
    JSON value without the fields below is a chunk that carries none. *)
Inductive payload := Unparsable | JsonNull | Parsed (c : chunk).

Record Props := {
  convId : jsstring;
  initialHistory : option (list message);
  backendAddr : jsstring
}.

(** The component's two [useState] cells. *)
Record state := State { messages : list message; input : jsstring }.

(** [initialHistory || []] *)
Definition history_or_empty (h : option (list message)) : list message :=
  match h with Some l => l | None => [] end.

(** The state at the first render. *)
Definition initial (props : Props) : state :=
  State (history_or_empty (initialHistory props)) [].

(** [x || ""] on an optional string. *)
Definition or_empty (t : option jsstring) : jsstring :=
  match t with Some s => s | None => [] end.

(** The updater passed to [setMessages] for a [partial_text] chunk.
    The source writes the longer text into [last] in place and returns a
    copy of it behind [prev.slice(0, -1)]; the array it wrote into is the
    previous state, which is dropped, so only the returned array is
    kept here. *)
Definition merge_partial (now : N) (pt : jsstring) (prev : list message) : list message :=
  match last prev with
  | Some l =>
      if __partial_agent l
      then removelast prev
             ++ [Message (id l) (sender l) (Some (concat (or_empty (text l)) pt)) (__partial_agent l)]
      else prev ++ [Message (Some (concat (lit "partial-") (number_to_string now)))
                            (lit "agent") (Some pt) true]
  | None => prev ++ [Message (Some (concat (lit "partial-") (number_to_string now)))
                             (lit "agent") (Some pt) true]
  end.

(** The updater for a final message. *)
Definition append_message (m : message) (prev : list message) : list message :=
  prev ++ [m].

Section Component.
Context {B : Type}.
Variable command : string -> args -> B -> B * option jsstring.

Definition setMessages (f : list message -> list message) (s : state * world B)
  : state * world B :=
  (State (f (messages (fst s))) (input (fst s)), log ESetMessages (snd s)).

Definition setInput (v : jsstring) (s : state * world B) : state * world B :=
  (State (messages (fst s)) v, log (ESetInput v) (snd s)).

(** The [stream_chunk] listener installed by the component; [now] is
    what [Date.now()] returns when the updater it queues is run. *)
Definition on_stream_chunk (now : N) (p : payload) (s : state * world B)
  : state * world B :=
  match p with
  | Unparsable | JsonNull => (fst s, log EConsoleError (snd s))
  | Parsed c =>
      if truthy (or_empty (partial_text c))
      then setMessages (merge_partial now (or_empty (partial_text c))) s
      else match final_message c with
           | Some m => setMessages (append_message m) s
           | None => s
           end
  end.

(** The effect on [initialHistory]: the list is replaced whenever the
    property changes. *)
Definition on_initialHistory (props : Props) (s : state * world B) : state * world B :=
  setMessages (fun _ => history_or_empty (initialHistory props)) s.

(** The effect run at mount: register the listener. *)
Definition mount (s : state * world B) : nat * (state * world B) :=
  let '(un, w) := listen "stream_chunk" ChatWindowListener (snd s) in
  (un, (fst s, w)).

(** Its cleanup, run at unmount: [unlistenPromise.then(u => u && u())]. *)
Definition cleanup (un : nat) (s : state * world B) : state * world B :=
  (fst s, unlisten un (snd s)).

(** [sendMessageAndStream(...)] applied to the arguments as written at
    the call site; extra arguments are dropped, missing ones are
    [undefined]. *)
Definition call_sendMessageAndStream (actuals : list jsval) (w : world B)
  : bool * world B :=
  GrpcClient.sendMessageAndStream command
    (nth 0 actuals VUndefined) (nth 1 actuals VUndefined)
    (nth 2 actuals VUndefined) (nth 3 actuals VUndefined) w.

Definition onSend (props : Props) (now : N) (s : state * world B) : state * world B :=
  if negb (truthy (trim (input (fst s)))) then s
  else
    let userMsg := Message (Some (concat (lit "u-") (number_to_string now)))
                           (lit "user") (Some (input (fst s))) false in
    let s1 := setMessages (append_message userMsg) s in
    let text := input (fst s) in
    let s2 := setInput [] s1 in
    (fst s2,
     snd (call_sendMessageAndStream
            [VString (backendAddr props); VString (convId props);
             VString (lit "user"); VString text] (snd s2))).

(** One [stream_chunk] event reaches every listener registered for it. *)
Definition deliver_to (now : N) (p : payload) (l : nat * (string * listener))
           (s : state * world B) : state * world B :=
  if String.eqb (fst (snd l)) "stream_chunk" then
    match snd (snd l) with
    | ChatWindowListener => on_stream_chunk now p s
    | ClientListener onChunk =>
        if truthy_val onChunk then
          match p, onChunk with
          | Unparsable, _ => (fst s, log EConsoleError (snd s))
          | _, VFunction NoOp => s
          | _, _ => (fst s, log EConsoleError (snd s))
          end
        else s
    end
  else s.

Definition deliver (now : N) (p : payload) (s : state * world B) : state * world B :=
  fold_left (fun acc l => deliver_to now p l acc) (listeners (snd s)) s.

(** A whole stream.  Each chunk comes with the value [Date.now()] has
    when its updater runs: the clock is read inside the updater, which
    React runs when it renders, not necessarily when the chunk arrives. *)
Definition process (chunks : list (N * payload)) (s : state * world B)
  : state * world B :=
  fold_left (fun acc c => on_stream_chunk (fst c) (snd c) acc) chunks s.

End Component.

(** The rendered message list: React key, alignment and body of every
    bubble, and the value of the input box. *)
Record bubble := Bubble {
  key : jsstring + nat;
  from_user : bool;
  body : option jsstring
}.

Definition render_message (idx : nat) (m : message) : bubble :=
  Bubble (if truthy (or_empty (id m)) then inl (or_empty (id m)) else inr idx)
         (bool_decide (sender m = lit "user"))
         (text m).

Definition render (s : state) : list bubble * jsstring :=
  (imap render_message (messages s), input s).

Definition count_partial (l : list message) : nat :=
  length (List.filter __partial_agent l).

(** No message but possibly the last one is flagged as partial. *)
Definition partial_only_last (l : list message) : bool :=
  forallb (fun m => negb (__partial_agent m)) (removelast l).

(** A stream without final messages. *)
Definition no_final (p : N * payload) : bool :=
  match snd p with
  | Unparsable | JsonNull => true
  | Parsed c => match final_message c with None => true | Some _ => false end
  end.

Definition partial_chunk (t : jsstring) : payload := Parsed (Chunk (Some t) None None).
Definition progress_chunk (p : N) : payload := Parsed (Chunk None (Some p) None).
Definition final_chunk (m : message) : payload := Parsed (Chunk None None (Some m)).

End ChatWindow.

(* ===================================================================== *)
(** ** components/UploadPanel.tsx *)
(* ===================================================================== *)

Module UploadPanel.
Import JS Tauri.

Record Props := { convId : jsstring; backendAddr : jsstring }.

Record state := State { progress : N; uploading : bool }.

(** A selected [File]: its name and its content. *)
Record file := File { name : jsstring; content : list Byte.byte }.

(** [new Uint8Array(data)] *)
Definition Uint8Array (data : list Byte.byte) : list N := List.map Byte.to_N data.

Section Component.
Context {B : Type}.
Variable command : string -> args -> B -> B * option jsstring.
(** The number of arguments the engine accepts in one call. *)
Variable max_args : N.

Definition setProgress (p : N) (s : state * world B) : state * world B :=
  (State p (uploading (fst s)), log (ESetProgress p) (snd s)).

Definition setUploading (u : bool) (s : state * world B) : state * world B :=
  (State (progress (fst s)) u, log (ESetUploading u) (snd s)).

(** [btoa(String.fromCharCode(...new Uint8Array(data)))] *)
Definition to_base64 (data : list Byte.byte) : exn + jsstring :=
  match fromCharCode_spread max_args (Uint8Array data) with
  | inl e => inl e
  | inr binary => btoa binary
  end.

(** The [finally] block; the timer it sets runs [reset_progress] when
    it fires, 700 ms later. *)
Definition finally (s : state * world B) : state * world B :=
  let s1 := setUploading false s in
  (fst s1, log (ESetTimeout 700) (snd s1)).


Definition call_sendMessageAndStream (actuals : list jsval) (w : world B)
  : bool * world B :=
  GrpcClient.sendMessageAndStream command
    (nth 0 actuals VUndefined) (nth 1 actuals VUndefined)
    (nth 2 actuals VUndefined) (nth 3 actuals VUndefined) w.

(** [onFileChange(e)], with [e.target.files?.[0]] as [selected].  The
    first component is the exception the returned promise is rejected
    with, if any. *)
Definition onFileChange (props : Props) (selected : option file)
           (s : state * world B) : option exn * (state * world B) :=
  match selected with
  | None => (None, s)
  | Some f =>
      let s1 := setProgress 10 (setUploading true s) in
      match to_base64 (content f) with
      | inl e => (Some e, s1)
      | inr b64 =>
          let s2 := setProgress 30 s1 in
          let '(resp, w3) :=
            GrpcClient.saveUploadedFile command (VString b64) (VString (name f)) (snd s2) in
          match resp with
          | None => (None, finally (fst s2, log EConsoleError w3))
          | Some path =>
              let s4 := setProgress 80 (fst s2, w3) in
              let text := concat (lit "Transcribe the video at ") path in
              let '(ok, w5) :=
                call_sendMessageAndStream
                  [VString (backendAddr props); VString (convId props);
                   VString (lit "user"); VString text; VFunction NoOp] (snd s4) in
              if ok then (None, finally (setProgress 100 (fst s4, w5)))
              else (None, finally (fst s4, log EConsoleError w5))
          end
      end
  end.

End Component.

(** A file of [2 ^ k] zero bytes. *)
Fixpoint zeros (k : nat) : list Byte.byte :=
  match k with
  | O => [Byte.x00]
  | S k' => zeros k' ++ zeros k'
  end.

End UploadPanel.


(* ===================================================================== *)
(** ** Orchestration core: data model *)
(* ===================================================================== *)

Local Open Scope nat_scope.

Module Model.

Inductive capability := transcription | vision | generation.

Inductive agent_state := Registered | Idle | Busy | Unresponsive | Deregistered.

Inductive task_state := Pending | Assigned | Running | Succeeded | Failed | Cancelled.

Inductive error_kind :=
| UnknownAgent | DuplicateCapabilityConflict | InvalidTransition
| DoubleCompletion | AgentUnavailable | TaskTimeout | IngestionError
| AssignmentHandoffTimeout.

#[global] Instance capability_eq_dec : EqDecision capability.
Proof. solve_decision. Defined.
#[global] Instance agent_state_eq_dec : EqDecision agent_state.
Proof. solve_decision. Defined.
#[global] Instance task_state_eq_dec : EqDecision task_state.
Proof. solve_decision. Defined.
#[global] Instance error_kind_eq_dec : EqDecision error_kind.
Proof. solve_decision. Defined.

Definition agent_id := nat.
Definition task_id := nat.

(** kind + message *)
Record task_error := TaskError { kind : error_kind; message : string }.

#[global] Instance task_error_eq_dec : EqDecision task_error.
Proof. solve_decision. Defined.

Definition terminal (s : task_state) : bool :=
  match s with
  | Succeeded | Failed | Cancelled => true
  | Pending | Assigned | Running => false
  end.

End Model.

(* ===================================================================== *)
(** ** Task Store *)
(* ===================================================================== *)

Module TaskStore.
Import Model.

Record task := Task {
  conversation_id : string;
  capability_required : capability;
  input : string;
  state : task_state;
  progress : nat;
  result : option string;
  error : option task_error;
  assigned_agent_id : option agent_id;
  retries : nat
}.

(** A progress event as a subscriber sees it. *)
Definition progress_event := (task_id * nat)%type.

(** Modelled from the spec: the Task Store of section 4.2, whose
    implementation (the Python manager) is not in the tree.  Tasks are
    kept in submission order and a task's id is its position; [events]
    is everything emitted so far, oldest first. *)
Record store := Store {
  tasks : list task;
  events : list progress_event
}.

Definition empty : store := Store [] [].

Definition set_state (s : task_state) (t : task) : task :=
  Task (conversation_id t) (capability_required t) (input t) s (progress t)
       (result t) (error t) (assigned_agent_id t) (retries t).

Definition set_progress (p : nat) (t : task) : task :=
  Task (conversation_id t) (capability_required t) (input t) (state t) p
       (result t) (error t) (assigned_agent_id t) (retries t).

Definition set_result (r : option string) (t : task) : task :=
  Task (conversation_id t) (capability_required t) (input t) (state t) (progress t)
       r (error t) (assigned_agent_id t) (retries t).

Definition set_error (e : option task_error) (t : task) : task :=
  Task (conversation_id t) (capability_required t) (input t) (state t) (progress t)
       (result t) e (assigned_agent_id t) (retries t).

Definition set_agent (a : option agent_id) (t : task) : task :=
  Task (conversation_id t) (capability_required t) (input t) (state t) (progress t)
       (result t) (error t) a (retries t).

Definition set_retries (n : nat) (t : task) : task :=
  Task (conversation_id t) (capability_required t) (input t) (state t) (progress t)
       (result t) (error t) (assigned_agent_id t) n.

Definition put (tid : task_id) (t : task) (st : store) : store :=
  Store (<[tid := t]> (tasks st)) (events st).

(** Modelled from the spec: [Get(task_id)]. *)
Definition Get (tid : task_id) (st : store) : option task := tasks st !! tid.

Definition state_of (tid : task_id) (st : store) : option task_state :=
  state <$> Get tid st.

(** Modelled from the spec: [Submit] creates a Pending task. *)
Definition Submit (conv : string) (cap : capability) (inp : string) (st : store)
  : task_id * store :=
  (length (tasks st),
   Store (tasks st ++ [Task conv cap inp Pending 0 None None None 0]) (events st)).

(** Modelled from the spec: [MarkAssigned] is Pending to Assigned and
    fails with [InvalidTransition] if the task is not Pending. *)
Definition MarkAssigned (tid : task_id) (aid : agent_id) (st : store)
  : error_kind + store :=
  match Get tid st with
  | Some t =>
      match state t with
      | Pending => inr (put tid (set_agent (Some aid) (set_state Assigned t)) st)
      | _ => inl InvalidTransition
      end
  | None => inl InvalidTransition
  end.

(** Modelled from the spec: [MarkRunning] is Assigned to Running. *)
Definition MarkRunning (tid : task_id) (st : store) : error_kind + store :=
  match Get tid st with
  | Some t =>
      match state t with
      | Assigned => inr (put tid (set_state Running t) st)
      | _ => inl InvalidTransition
      end
  | None => inl InvalidTransition
  end.

(** Modelled from the spec: [UpdateProgress] is rejected (a no-op) if
    the value is less than the current one or the task is not Running;
    an accepted update is emitted to subscribers. *)
Definition UpdateProgress (tid : task_id) (p : nat) (st : store) : store :=
  match Get tid st with
  | Some t =>
      match state t with
      | Running =>
          if p <? progress t then st
          else Store (<[tid := set_progress p t]> (tasks st)) (events st ++ [(tid, p)])
      | _ => st
      end
  | None => st
  end.

(** Modelled from the spec: [Complete] is a terminal transition from
    Running or Assigned only; on a terminal task the same outcome is a
    no-op and a different one is [DoubleCompletion]. *)
Definition Complete (tid : task_id) (r : string) (st : store) : error_kind + store :=
  match Get tid st with
  | Some t =>
      match state t with
      | Running | Assigned => inr (put tid (set_result (Some r) (set_state Succeeded t)) st)
      | Pending => inl InvalidTransition
      | Succeeded =>
          if bool_decide (result t = Some r) then inr st else inl DoubleCompletion
      | Failed | Cancelled => inl DoubleCompletion
      end
  | None => inl InvalidTransition
  end.

(** Modelled from the spec: [Fail], the counterpart of [Complete]. *)
Definition Fail (tid : task_id) (e : task_error) (st : store) : error_kind + store :=
  match Get tid st with
  | Some t =>
      match state t with
      | Running | Assigned => inr (put tid (set_error (Some e) (set_state Failed t)) st)
      | Pending => inl InvalidTransition
      | Failed =>
          if bool_decide (error t = Some e) then inr st else inl DoubleCompletion
      | Succeeded | Cancelled => inl DoubleCompletion
      end
  | None => inl InvalidTransition
  end.

(** Modelled from the spec: [Cancel] is allowed from Pending, Assigned
    and Running. *)
Definition Cancel (tid : task_id) (st : store) : error_kind + store :=
  match Get tid st with
  | Some t =>
      if terminal (state t) then inl InvalidTransition
      else inr (put tid (set_state Cancelled t) st)
  | None => inl InvalidTransition
  end.

(** Modelled from the spec: the return to Pending on reassignment
    (sections 3, 4.1 and 4.3; by section 5 every mutation goes through a
    Task Store operation).  From Assigned or Running the task goes back
    to Pending, its agent is cleared and its retry counter goes up. *)
Definition ReturnToPending (tid : task_id) (st : store) : error_kind + store :=
  match Get tid st with
  | Some t =>
      match state t with
      | Assigned | Running =>
          inr (put tid (set_retries (S (retries t))
                          (set_agent None (set_state Pending t))) st)
      | _ => inl InvalidTransition
      end
  | None => inl InvalidTransition
  end.

(** Modelled from the spec: [Subscribe] hands out the events emitted
    from now on; [observed] is what a subscription taken at [cursor] has
    seen of task [tid]. *)
Definition Subscribe (st : store) : nat := length (events st).

Definition observed (cursor : nat) (tid : task_id) (st : store) : list nat :=
  snd <$> List.filter (fun e => Nat.eqb (fst e) tid) (drop cursor (events st)).

(** Everything emitted for a task so far. *)
Definition seen (tid : task_id) (st : store) : list nat :=
  snd <$> List.filter (fun e => Nat.eqb (fst e) tid) (events st).

(** The emitted values of every task are in order and none exceeds the
    progress the task has now. *)
Definition bounded (st : store) : Prop :=
  forall tid,
    StronglySorted le (seen tid st)
    /\ forall p, In p (seen tid st) -> exists t, Get tid st = Some t /\ p <= progress t.

(** The mutating operations, as data. *)
Inductive op :=
| OSubmit (conv : string) (cap : capability) (inp : string)
| OMarkAssigned (tid : task_id) (aid : agent_id)
| OMarkRunning (tid : task_id)
| OUpdateProgress (tid : task_id) (p : nat)
| OComplete (tid : task_id) (r : string)
| OFail (tid : task_id) (e : task_error)
| OCancel (tid : task_id)
| OReturnToPending (tid : task_id).

(** A failed operation leaves the store as it was. *)
Definition settle (st : store) (r : error_kind + store) : store :=
  match r with inl _ => st | inr st' => st' end.

Definition apply (o : op) (st : store) : store :=
  match o with
  | OSubmit conv cap inp => snd (Submit conv cap inp st)
  | OMarkAssigned tid aid => settle st (MarkAssigned tid aid st)
  | OMarkRunning tid => settle st (MarkRunning tid st)
  | OUpdateProgress tid p => UpdateProgress tid p st
  | OComplete tid r => settle st (Complete tid r st)
  | OFail tid e => settle st (Fail tid e st)
  | OCancel tid => settle st (Cancel tid st)
  | OReturnToPending tid => settle st (ReturnToPending tid st)
  end.

Definition run (ops : list op) (st : store) : store :=
  fold_left (fun acc o => apply o acc) ops st.

(** [st'] is reached from [st] by operations of the Task Store. *)
Definition by_operations (st st' : store) : Prop :=
  exists ops, st' = run ops st.

(** The lifecycle edges the property list of the specification names. *)
Definition listed_edge (a b : task_state) : bool :=
  match a, b with
  | Pending, Assigned | Assigned, Running
  | Running, Succeeded | Running, Failed => true
  | (Pending | Assigned | Running), Cancelled => true
  | _, _ => false
  end.

(** The edges the operations of the Task Store have: the listed ones,
    the terminal transitions straight from Assigned, and the return to
    Pending of a task whose agent was lost. *)
Definition store_edge (a b : task_state) : bool :=
  listed_edge a b ||
  match a, b with
  | Assigned, Succeeded | Assigned, Failed => true
  | Assigned, Pending | Running, Pending => true
  | _, _ => false
  end.

End TaskStore.

(* ===================================================================== *)
(** ** Agent Registry *)
(* ===================================================================== *)

Module Registry.
Import Model.

Record agent := Agent {
  capability : Model.capability;
  state : agent_state;
  last_heartbeat_at : nat;
  last_assigned_at : nat
}.

(** Modelled from the spec: the Agent Registry of section 4.1, whose
    implementation is not in the tree.  An agent's id is its position;
    a removed agent keeps its slot in state Deregistered, so ids stay
    unique for the lifetime of the process. *)
Definition registry := list agent.

Definition set_state (s : agent_state) (a : agent) : agent :=
  Agent (capability a) s (last_heartbeat_at a) (last_assigned_at a).

Definition set_heartbeat (now : nat) (a : agent) : agent :=
  Agent (capability a) (state a) now (last_assigned_at a).

Definition set_assigned (seq : nat) (a : agent) : agent :=
  Agent (capability a) (state a) (last_heartbeat_at a) seq.

(** An agent that has not been evicted or removed. *)
Definition live (a : agent) : bool :=
  match state a with
  | Registered | Idle | Busy => true
  | Unresponsive | Deregistered => false
  end.

Definition serves (cap : Model.capability) (a : agent) : bool :=
  bool_decide (capability a = cap).

Definition is_idle (a : agent) : bool := bool_decide (state a = Idle).

(** Modelled from the spec: [Register] creates the agent (Registered,
    then Idle) and fails with [DuplicateCapabilityConflict] only under
    the single-instance-per-capability configuration. *)
Definition Register (single_instance : bool) (cap : Model.capability) (now : nat)
           (reg : list agent) : error_kind + (agent_id * list agent) :=
  if single_instance && existsb (fun a => live a && serves cap a) reg
  then inl DuplicateCapabilityConflict
  else inr (length reg, reg ++ [set_state Idle (Agent cap Registered now 0)]).

(** Modelled from the spec: [Heartbeat] updates [last_heartbeat_at] and
    fails with [UnknownAgent] if the id was evicted. *)
Definition Heartbeat (aid : agent_id) (now : nat) (reg : list agent)
  : error_kind + list agent :=
  match reg !! aid with
  | Some a => if live a then inr (<[aid := set_heartbeat now a]> reg)
              else inl UnknownAgent
  | None => inl UnknownAgent
  end.

(** Modelled from the spec: [Deregister] removes the agent. *)
Definition Deregister (aid : agent_id) (reg : list agent) : list agent :=
  match reg !! aid with
  | Some a => <[aid := set_state Deregistered a]> reg
  | None => reg
  end.

(** Idle agents of a capability from position [i] on, each with the
    stamp of its last assignment. *)
Fixpoint idle_from (i : nat) (cap : Model.capability) (reg : list agent)
  : list (agent_id * nat) :=
  match reg with
  | [] => []
  | a :: rest =>
      if is_idle a && serves cap a
      then (i, last_assigned_at a) :: idle_from (S i) cap rest
      else idle_from (S i) cap rest
  end.

Fixpoint insert_by_stamp (x : agent_id * nat) (l : list (agent_id * nat))
  : list (agent_id * nat) :=
  match l with
  | [] => [x]
  | y :: rest => if snd x <? snd y then x :: l else y :: insert_by_stamp x rest
  end.

Definition sort_by_stamp (l : list (agent_id * nat)) : list (agent_id * nat) :=
  foldr insert_by_stamp [] l.

(** Modelled from the spec: [ListIdleByCapability], least recently
    assigned first. *)
Definition ListIdleByCapability (cap : Model.capability) (reg : list agent)
  : list agent_id :=
  fst <$> sort_by_stamp (idle_from 0 cap reg).

End Registry.

(* ===================================================================== *)
(** ** Agent Manager *)
(* ===================================================================== *)

Module AgentManager.
Import Model.

Record config := Config {
  single_instance_per_capability : bool;
  heartbeat_timeout : nat;
  max_retries : nat;
  (** Step 2 of the assignment algorithm says to "leave task Pending and
      stop" when no agent matches.  [true]: the scan stops there;
      [false]: only the work on that task stops and the scan goes on. *)
  stop_at_unmatched : bool
}.

Definition default_config : config := Config false 15 3 true.

(** Modelled from the spec: the Agent Manager of section 4.3, which owns
    the Registry and the Task Store; its implementation is not in the
    tree.  [outbox] is what was pushed on the agents' [AssignTask]
    streams, oldest first. *)
Record manager := Manager {
  cfg : config;
  registry : list Registry.agent;
  store : TaskStore.store;
  assign_seq : nat;
  outbox : list (agent_id * task_id)
}.

Definition init (c : config) : manager := Manager c [] TaskStore.empty 0 [].

Definition with_store (st : TaskStore.store) (m : manager) : manager :=
  Manager (cfg m) (registry m) st (assign_seq m) (outbox m).

Definition with_registry (reg : list Registry.agent) (m : manager) : manager :=
  Manager (cfg m) reg (store m) (assign_seq m) (outbox m).

Definition set_agent_state (aid : agent_id) (s : agent_state) (m : manager) : manager :=
  match registry m !! aid with
  | Some a => with_registry (<[aid := Registry.set_state s a]> (registry m)) m
  | None => m
  end.

(** Step 1: the Pending tasks, oldest first. *)
Fixpoint pending_from (i : nat) (ts : list TaskStore.task) : list task_id :=
  match ts with
  | [] => []
  | t :: rest =>
      if bool_decide (TaskStore.state t = Pending)
      then i :: pending_from (S i) rest
      else pending_from (S i) rest
  end.

Definition pending_ids (m : manager) : list task_id :=
  pending_from 0 (TaskStore.tasks (store m)).

(** Step 3: mark the task Assigned and the agent Busy, deliver. *)
Definition assign_one (tid : task_id) (aid : agent_id) (m : manager) : manager :=
  match TaskStore.MarkAssigned tid aid (store m), registry m !! aid with
  | inr st, Some a =>
      Manager (cfg m)
              (<[aid := Registry.set_assigned (S (assign_seq m))
                          (Registry.set_state Busy a)]> (registry m))
              st (S (assign_seq m)) (outbox m ++ [(aid, tid)])
  | _, _ => m
  end.

(** Steps 2 to 4 over the Pending tasks found in step 1. *)
Fixpoint assign_loop (ids : list task_id) (m : manager) : manager :=
  match ids with
  | [] => m
  | tid :: rest =>
      match TaskStore.Get tid (store m) with
      | Some t =>
          match Registry.ListIdleByCapability (TaskStore.capability_required t) (registry m) with
          | aid :: _ => assign_loop rest (assign_one tid aid m)
          | [] => if stop_at_unmatched (cfg m) then m else assign_loop rest m
          end
      | None => assign_loop rest m
      end
  end.

(** Modelled from the spec: the assignment algorithm. *)
Definition assign (m : manager) : manager := assign_loop (pending_ids m) m.


Definition holds (aid : agent_id) (t : TaskStore.task) : bool :=
  bool_decide (TaskStore.assigned_agent_id t = Some aid) &&
  (bool_decide (TaskStore.state t = Assigned) || bool_decide (TaskStore.state t = Running)).

Fixpoint held_from (i : nat) (aid : agent_id) (ts : list TaskStore.task) : option task_id :=
  match ts with
  | [] => None
  | t :: rest => if holds aid t then Some i else held_from (S i) aid rest
  end.

(** The non-terminal task an agent holds, if any. *)
Definition held_task (aid : agent_id) (m : manager) : option task_id :=
  held_from 0 aid (TaskStore.tasks (store m)).

Definition agent_unavailable : task_error :=
  TaskError AgentUnavailable "agent lost; retries exhausted".

(** Modelled from the spec: reassignment on agent loss.  A task held in
    Assigned or Running goes back to Pending with its retry counter
    incremented; at the [max_retries]-th loss it is Failed with
    [AgentUnavailable]. *)
Definition requeue (tid : task_id) (m : manager) : manager :=
  match TaskStore.Get tid (store m) with
  | Some t =>
      if bool_decide (TaskStore.state t = Assigned) || bool_decide (TaskStore.state t = Running)
      then
        if max_retries (cfg m) <=? S (TaskStore.retries t)
        then with_store (TaskStore.settle (store m)
                           (TaskStore.Fail tid agent_unavailable (store m))) m
        else with_store (TaskStore.settle (store m)
                           (TaskStore.ReturnToPending tid (store m))) m
      else m
  | None => m
  end.

(** An agent is lost: it changes state and the task it held is requeued. *)
Definition lose_agent (aid : agent_id) (s : agent_state) (m : manager) : manager :=
  match held_task aid m with
  | Some tid => requeue tid (set_agent_state aid s m)
  | None => set_agent_state aid s m
  end.

Definition expired (now : nat) (timeout : nat) (a : Registry.agent) : bool :=
  Registry.live a && (Registry.last_heartbeat_at a + timeout <? now).

(** Modelled from the spec: the liveness sweep. *)
Definition sweep (now : nat) (m : manager) : manager :=
  fold_left
    (fun acc aid =>
       match registry acc !! aid with
       | Some a => if expired now (heartbeat_timeout (cfg acc)) a
                   then lose_agent aid Unresponsive acc else acc
       | None => acc
       end)
    (seq 0 (length (registry m))) m.

(** The agent of a task becomes Idle again once the task is over. *)
Definition release (aid : option agent_id) (m : manager) : manager :=
  match aid with
  | Some a =>
      match registry m !! a with
      | Some ag => if bool_decide (Registry.state ag = Busy)
                   then set_agent_state a Idle m else m
      | None => m
      end
  | None => m
  end.

Inductive outcome := Success (r : string) | Failure (e : task_error).

Inductive request :=
| Submit (conv : string) (cap : capability) (inp : string)
| Register (cap : capability) (now : nat)
| Heartbeat (aid : agent_id) (now : nat)
| Deregister (aid : agent_id)
| Sweep (now : nat)
| Acknowledge (tid : task_id)
| ReportProgress (tid : task_id) (p : nat)
| SubmitResult (tid : task_id) (o : outcome)
| Cancel (tid : task_id)
| HandoffTimeout (tid : task_id)
| TaskTimedOut (tid : task_id).

Inductive response :=
| TaskId (tid : task_id)
| AgentId (aid : agent_id)
| Ok
| Rejected (e : error_kind).

Definition holder (tid : task_id) (m : manager) : option agent_id :=
  TaskStore.Get tid (store m) ≫= TaskStore.assigned_agent_id.

Definition task_timeout : task_error := TaskError TaskTimeout "task timed out".

(** A terminal transition or a cancellation that went through frees the
    agent and triggers assignment. *)
Definition finish (tid : task_id) (r : error_kind + TaskStore.store) (m : manager)
  : response * manager :=
  match r with
  | inl e => (Rejected e, m)
  | inr st =>
      if default true (terminal <$> TaskStore.state_of tid (store m))
      then (Ok, with_store st m)
      else (Ok, assign (release (holder tid m) (with_store st m)))
  end.

(** Modelled from the spec: what the manager does on each request of
    its service interface and on each timer. *)
Definition handle (r : request) (m : manager) : response * manager :=
  match r with
  | Submit conv cap inp =>
      let '(tid, st) := TaskStore.Submit conv cap inp (store m) in
      (TaskId tid, assign (with_store st m))
  | Register cap now =>
      match Registry.Register (single_instance_per_capability (cfg m)) cap now (registry m) with
      | inl e => (Rejected e, m)
      | inr (aid, reg) => (AgentId aid, assign (with_registry reg m))
      end
  | Heartbeat aid now =>
      match Registry.Heartbeat aid now (registry m) with
      | inl e => (Rejected e, m)
      | inr reg => (Ok, with_registry reg m)
      end
  | Deregister aid => (Ok, assign (lose_agent aid Deregistered m))
  | Sweep now => (Ok, assign (sweep now m))
  | Acknowledge tid =>
      match TaskStore.MarkRunning tid (store m) with
      | inl e => (Rejected e, m)
      | inr st => (Ok, with_store st m)
      end
  | ReportProgress tid p => (Ok, with_store (TaskStore.UpdateProgress tid p (store m)) m)
  | SubmitResult tid (Success res) => finish tid (TaskStore.Complete tid res (store m)) m
  | SubmitResult tid (Failure e) => finish tid (TaskStore.Fail tid e (store m)) m
  | Cancel tid => finish tid (TaskStore.Cancel tid (store m)) m
  | HandoffTimeout tid =>
      match TaskStore.Get tid (store m) with
      | Some t =>
          if bool_decide (TaskStore.state t = Assigned)
          then match TaskStore.assigned_agent_id t with
               | Some aid => (Ok, assign (lose_agent aid Unresponsive m))
               | None => (Ok, assign (requeue tid m))
               end
          else (Ok, m)
      | None => (Ok, m)
      end
  | TaskTimedOut tid =>
      match TaskStore.Get tid (store m) with
      | Some t =>
          if bool_decide (TaskStore.state t = Running)
          then
            let m1 := with_store (TaskStore.settle (store m)
                                    (TaskStore.Fail tid task_timeout (store m))) m in
            match TaskStore.assigned_agent_id t with
            | Some aid => (Ok, assign (lose_agent aid Unresponsive m1))
            | None => (Ok, m1)
            end
          else (Ok, m)
      | None => (Ok, m)
      end
  end.

Definition step (r : request) (m : manager) : manager := snd (handle r m).

Definition run (rs : list request) (m : manager) : manager :=
  fold_left (fun acc r => step r acc) rs m.

Definition task_state_of (tid : task_id) (m : manager) : option task_state :=
  TaskStore.state_of tid (store m).

(** No agent of this capability is alive. *)
Definition starved (cap : capability) (m : manager) : Prop :=
  Forall (fun a => Registry.serves cap a && Registry.live a = false) (registry m).

(** A request that neither registers an agent of capability [cap] nor
    cancels task [tid]. *)
Definition leaves_waiting (cap : capability) (tid : task_id) (r : request) : bool :=
  match r with
  | Register cap' _ => negb (bool_decide (cap' = cap))
  | Cancel tid' => negb (bool_decide (tid' = tid))
  | _ => true
  end.

(** Task [tid] is Pending and requires [cap]. *)
Definition waiting (cap : capability) (tid : task_id) (m : manager) : Prop :=
  exists t, TaskStore.Get tid (store m) = Some t
            /\ TaskStore.state t = Pending
            /\ TaskStore.capability_required t = cap.






(** A Pending task whose capability nobody alive serves. *)
Definition stalled (cap : capability) (tid : task_id) (m : manager) : Prop :=
  waiting cap tid m /\ starved cap m.

End AgentManager.

(* ===================================================================== *)
(** ** Concrete runs *)
(* ===================================================================== *)

Module Runs.
Import JS Tauri ChatWindow.
Local Open Scope N_scope.

Definition w0 : world unit := World [] 0 [] tt.

(** An empty chat. *)
Definition s0 : ChatWindow.state * world unit := (State [] [], w0).

(** A chat that ends in the partial message "Hel". *)
Definition s1 : ChatWindow.state * world unit :=
  (State [Message (Some (lit "u-1")) (lit "user") (Some (lit "hi")) false;
          Message (Some (lit "partial-2")) (lit "agent") (Some (lit "Hel")) true] [],
   w0).

Definition reply : message :=
  Message (Some (lit "m-9")) (lit "agent") (Some (lit "Hello")) false.

End Runs.

(* ===================================================================== *)
(** ** Concrete scenarios of the orchestration core *)
(* ===================================================================== *)

Module Scenarios.
Import Model.

(** One task, submitted and assigned to agent 7. *)
Definition assigned_store : TaskStore.store :=
  TaskStore.run [TaskStore.OSubmit "c1" transcription "video.mp4";
                 TaskStore.OMarkAssigned 0 7] TaskStore.empty.

Definition assigned_task : TaskStore.task :=
  TaskStore.Task "c1" transcription "video.mp4" Assigned 0 None None (Some 7) 0.

Definition disk_full : task_error := TaskError IngestionError "disk full".

(** The same task, completed with result "R". *)
Definition completed_store : TaskStore.store :=
  TaskStore.apply (TaskStore.OComplete 0 "R") assigned_store.

Definition completed_task : TaskStore.task :=
  TaskStore.Task "c1" transcription "video.mp4" Succeeded 0 (Some "R") None (Some 7) 0.

(** A task that runs and reports 10, then 5 (rejected), then 50. *)
Definition progress_ops : list TaskStore.op :=
  [TaskStore.OSubmit "c1" transcription "video.mp4";
   TaskStore.OMarkAssigned 0 7;
   TaskStore.OMarkRunning 0;
   TaskStore.OUpdateProgress 0 10;
   TaskStore.OUpdateProgress 0 5;
   TaskStore.OUpdateProgress 0 50].

Definition running_task : TaskStore.task :=
  TaskStore.Task "c1" transcription "video.mp4" Running 50 None None (Some 7) 0.

(** A manager whose only agent runs the only task. *)
Definition running_manager : AgentManager.manager :=
  AgentManager.run [AgentManager.Register transcription 0;
                    AgentManager.Submit "c1" transcription "video.mp4";
                    AgentManager.Acknowledge 0]
                   (AgentManager.init AgentManager.default_config).

(** A manager that only a vision agent has registered with. *)
Definition vision_only : AgentManager.manager :=
  AgentManager.run [AgentManager.Register vision 0]
                   (AgentManager.init AgentManager.default_config).

(** What may happen after a transcription task was submitted to it:
    everything but a transcription agent registering or the task (id 0)
    being cancelled. *)
Definition later_requests : list AgentManager.request :=
  [AgentManager.Submit "c1" vision "frame.png";
   AgentManager.Heartbeat 0 2;
   AgentManager.Acknowledge 0;
   AgentManager.ReportProgress 0 10;
   AgentManager.SubmitResult 0 (AgentManager.Success "R");
   AgentManager.HandoffTimeout 0;
   AgentManager.TaskTimedOut 0;
   AgentManager.Sweep 100;
   AgentManager.Register vision 101;
   AgentManager.Cancel 1;
   AgentManager.Deregister 1].



End Scenarios.

(* ===================================================================== *)
(** ** grpcClient, the revision that takes the backend address *)
(* ===================================================================== *)

(** [ChatWindow.tsx] and [UploadPanel.tsx] are written against a
    revision of the client whose functions take [backendAddr] first; the
    tree carries it next to the chat window. *)
Module GrpcClientAddr.
Import JS Tauri.

Section Client.
Context {B : Type}.
Variable command : string -> args -> B -> B * option jsstring.

Definition sendMessageAndStream (backendAddr conversationId sender text onChunk : jsval)
           (w : world B) : bool * world B :=
  let '(un, w1) := listen "stream_chunk" (ClientListener onChunk) w in
  let '(r, w2) :=
    invoke command "send_message_and_stream"
           [("backend_addr", backendAddr); ("conversation_id", conversationId);
            ("sender", sender); ("text", text)]%string w1 in
  match r with
  | Some _ => (true, unlisten un w2)
  | None => (false, w2)
  end.

(** The call with the actual arguments bound by position. *)
Definition call_sendMessageAndStream (actuals : list jsval) (w : world B)
  : bool * world B :=
  sendMessageAndStream
    (nth 0 actuals VUndefined) (nth 1 actuals VUndefined)
    (nth 2 actuals VUndefined) (nth 3 actuals VUndefined)
    (nth 4 actuals VUndefined) w.

End Client.
End GrpcClientAddr.

(* ===================================================================== *)
(** ** Reading the runtime *)
(* ===================================================================== *)

Module Observe.
Import JS Tauri.

(** Every listener registered so far got a number below the counter. *)
Definition well_numbered {B : Type} (w : world B) : Prop :=
  Forall (fun e : nat * (string * listener) => fst e < next_listener w) (listeners w).

Definition hears_chat (l : nat * (string * listener)) : bool :=
  String.eqb (fst (snd l)) "stream_chunk"
  && match snd (snd l) with ChatWindowListener => true | ClientListener _ => false end.

(** How many chat-window handlers are registered for [stream_chunk]. *)
Definition chat_listeners (ls : list (nat * (string * listener))) : nat :=
  length (List.filter hears_chat ls).






(** The arguments of the invocations of a command, in order. *)
Fixpoint arguments_of (cmd : string) (tr : list event) : list args :=
  match tr with
  | [] => []
  | EInvoke c a :: rest =>
      if String.eqb c cmd then a :: arguments_of cmd rest else arguments_of cmd rest
  | _ :: rest => arguments_of cmd rest
  end.

End Observe.

(* ===================================================================== *)
(** ** Decoding base64 *)
(* ===================================================================== *)

Module Base64.
Import JS.
Local Open Scope N_scope.

Fixpoint index_from (i : N) (c : N) (l : list N) : N :=
  match l with
  | [] => 0
  | x :: rest => if x =? c then i else index_from (N.succ i) c rest
  end.

(** The sextet a base64 character stands for. *)
Definition sextet (c : N) : N := index_from 0 c b64_alphabet.

(** The octets of a padded base64 text, four characters at a time. *)
Fixpoint decode (s : jsstring) : list N :=
  match s with
  | c1 :: c2 :: c3 :: c4 :: rest =>
      let o1 := sextet c1 * 4 + sextet c2 / 16 in
      if c3 =? pad then [o1]
      else
        let o2 := (sextet c2 mod 16) * 16 + sextet c3 / 4 in
        if c4 =? pad then [o1; o2]
        else o1 :: o2 :: ((sextet c3 mod 4) * 64 + sextet c4) :: decode rest
  | _ => []
  end.

(** A character of the alphabet or the padding character. *)
Definition b64_text_char (c : N) : bool :=
  existsb (N.eqb c) b64_alphabet || (c =? pad).

End Base64.

(* ===================================================================== *)
(** ** components/ArtifactViewer.tsx *)
(* ===================================================================== *)

Module ArtifactViewer.
Import JS Tauri.
Local Open Scope N_scope.

Definition slash : N := 47.

(** [s.split(sep)] for a separator of one character. *)
Fixpoint split (sep : N) (s : jsstring) : list jsstring :=
  match s with
  | [] => [[]]
  | c :: rest =>
      if c =? sep then [] :: split sep rest
      else match split sep rest with
           | seg :: segs => (c :: seg) :: segs
           | [] => [[c]]
           end
  end.

(** [f.split('/').pop()], the text of an entry; [None] is [undefined]. *)
Definition label (f : jsstring) : option jsstring := last (split slash f).

End ArtifactViewer.

(* ===================================================================== *)
(** ** More concrete runs *)
(* ===================================================================== *)

Module MoreRuns.
Import JS Tauri.
Local Open Scope N_scope.

(** Commands that always resolve, with a path, and that always reject. *)
Definition resolving : string -> args -> unit -> unit * option jsstring :=
  fun _ _ u => (u, Some (lit "/uploads/video.mp4")).


Definition chat_props : ChatWindow.Props :=
  ChatWindow.Build_Props (lit "default") None (lit "localhost:50051").

Definition upload_props : UploadPanel.Props :=
  UploadPanel.Build_Props (lit "default") (lit "localhost:50051").

(** The chat of [Runs.s1] with "again" typed into the input box. *)
Definition typing : ChatWindow.state * world unit :=
  (ChatWindow.State (ChatWindow.messages (fst Runs.s1)) (lit "again"), Runs.w0).

(** A runtime in which two other listeners are registered. *)
Definition busy_world : world unit :=
  World [(0%nat, ("stream_chunk"%string, ClientListener VUndefined));
         (3%nat, ("stream_done"%string, ClientListener (VFunction NoOp)))]
        4 [] tt.

Definition small_file : UploadPanel.file :=
  UploadPanel.File (lit "clip.mp4") [Byte.x4d; Byte.x61; Byte.x6e; Byte.x21].

End MoreRuns.

(* ===================================================================== *)
(** * Properties of the front end *)
(* ===================================================================== *)

Section FrontEnd.
Import JS Tauri.
Local Open Scope N_scope.
Context {B : Type}.
Variable command : string -> args -> B -> B * option jsstring.

(** *** [trim] *)

Lemma trim_start_nil (s : jsstring) :
  trim_start s = [] <-> blank s = true.
Proof.
  induction s as [|c s IH]; simpl.
  - tauto.
  - destruct (is_trim_space c) eqn:Hc; simpl.
    + exact IH.
    + split; discriminate.
Qed.

Lemma blank_rev (s : jsstring) : blank (rev s) = blank s.
Proof.
  unfold blank. apply eq_true_iff_eq.
  rewrite !forallb_forall. split; intros H x Hx; apply H.
  - apply in_rev in Hx. exact Hx.
  - apply in_rev. exact Hx.
Qed.

Lemma trim_start_suffix (s : jsstring) :
  exists pre, s = pre ++ trim_start s /\ blank pre = true.
Proof.
  induction s as [|c s [pre [Hs Hp]]]; simpl.
  - exists []. split; reflexivity.
  - destruct (is_trim_space c) eqn:Hc.
    + exists (c :: pre). simpl. rewrite Hc, Hp. split; [congruence | reflexivity].
    + exists []. split; reflexivity.
Qed.

Lemma blank_app (a b : jsstring) : blank (a ++ b) = blank a && blank b.
Proof. unfold blank. apply forallb_app. Qed.

Lemma blank_trim_start (s : jsstring) : blank (trim_start s) = blank s.
Proof.
  destruct (trim_start_suffix s) as [pre [Hs Hp]].
  rewrite Hs at 2. rewrite blank_app, Hp. reflexivity.
Qed.

(** [!s.trim()] holds exactly for the strings made of white space. *)
Lemma not_trim_blank (s : jsstring) : negb (truthy (trim s)) = blank s.
Proof.
  unfold trim, trim_end.
  destruct (blank s) eqn:Hb.
  - apply trim_start_nil in Hb. rewrite Hb. reflexivity.
  - destruct (rev (trim_start (rev (trim_start s)))) as [|c r] eqn:Hr; [|reflexivity].
    exfalso.
    apply (f_equal (@rev N)) in Hr. rewrite rev_involutive in Hr. simpl in Hr.
    apply trim_start_nil in Hr.
    rewrite blank_rev, blank_trim_start in Hr. congruence.
Qed.

Lemma trim_blank_example :
  trim (lit "	 hi  ") = lit "hi" /\ blank (lit "  ") = true /\ blank [0x3000; 0x00A0] = true.
Proof. repeat split. Qed.

(** *** The chat window *)

Import ChatWindow.

(** C9: on an input that is empty or white space only, [onSend] changes
    nothing: no message is appended and no command is invoked.  On any
    other input it appends exactly one user message carrying the typed
    text, clears the input, and only then starts the stream by invoking
    [send_message_and_stream]. *)
Theorem onSend_blank_or_sent props now (s : ChatWindow.state * world B) :
  let s' := onSend command props now s in
  if blank (input (fst s)) then s' = s
  else
    messages (fst s') =
      messages (fst s)
        ++ [Message (Some (lit "u-" ++ number_to_string now)) (lit "user")
                    (Some (input (fst s))) false]
    /\ input (fst s') = []
    /\ exists a rest,
         trace (snd s') =
           trace (snd s)
             ++ [ESetMessages; ESetInput [];
                 EListen "stream_chunk" (next_listener (snd s));
                 EInvoke "send_message_and_stream" a] ++ rest
         /\ (rest = [] \/ rest = [EUnlisten (next_listener (snd s))]).
Proof.
  intros s'. subst s'. unfold onSend. rewrite not_trim_blank.
  destruct (blank (input (fst s))); [reflexivity|].
  destruct s as [[ms inp] w]. simpl.
  split; [reflexivity|]. split; [reflexivity|].
  unfold call_sendMessageAndStream, GrpcClient.sendMessageAndStream, invoke. simpl.
  destruct (command _ _ _) as [b [r|]]; simpl;
    eexists; eexists; rewrite <- !app_assoc; simpl; split; eauto.
Qed.

(** What a chunk does to the message list. *)
Lemma on_stream_chunk_messages now c (s : ChatWindow.state * world B) :
  messages (fst (on_stream_chunk now (Parsed c) s)) =
    if truthy (or_empty (partial_text c))
    then merge_partial now (or_empty (partial_text c)) (messages (fst s))
    else match final_message c with
         | Some m => messages (fst s) ++ [m]
         | None => messages (fst s)
         end.
Proof.
  unfold on_stream_chunk.
  destruct (truthy (or_empty (partial_text c))); [reflexivity|].
  destruct (final_message c); reflexivity.
Qed.

(** C2, as the code has it: a chunk with a non-empty [partial_text] is
    merged into the trailing partial agent message, or starts a new one
    when the list is empty or ends in another kind of message; a chunk
    without it that carries a message appends that message; a chunk with
    neither, such as a progress chunk, changes nothing at all.  The input
    box is never touched. *)
Theorem stream_chunk_handling now c (s : ChatWindow.state * world B) :
  let s' := on_stream_chunk now (Parsed c) s in
  input (fst s') = input (fst s)
  /\ (forall pt init l,
        partial_text c = Some pt -> pt <> [] ->
        messages (fst s) = init ++ [l] -> __partial_agent l = true ->
        messages (fst s') =
          init ++ [Message (id l) (sender l) (Some (or_empty (text l) ++ pt)) true])
  /\ (forall pt,
        partial_text c = Some pt -> pt <> [] ->
        (forall init l, messages (fst s) = init ++ [l] -> __partial_agent l = false) ->
        messages (fst s') =
          messages (fst s)
            ++ [Message (Some (lit "partial-" ++ number_to_string now)) (lit "agent")
                        (Some pt) true])
  /\ (forall m,
        or_empty (partial_text c) = [] -> final_message c = Some m ->
        messages (fst s') = messages (fst s) ++ [m])
  /\ (or_empty (partial_text c) = [] -> final_message c = None -> s' = s).
Proof.
  intros s'. subst s'. repeat split.
  - unfold on_stream_chunk.
    destruct (truthy _); [reflexivity|]. destruct (final_message c); reflexivity.
  - intros pt init l Hpt Hne Hms Hl.
    rewrite on_stream_chunk_messages, Hpt. simpl.
    destruct pt as [|ch pt]; [congruence|]. simpl.
    unfold merge_partial. rewrite Hms, last_snoc, Hl, removelast_last.
    reflexivity.
  - intros pt Hpt Hne Hlast.
    rewrite on_stream_chunk_messages, Hpt. simpl.
    destruct pt as [|ch pt]; [congruence|]. simpl.
    unfold merge_partial.
    destruct (last (messages (fst s))) as [l|] eqn:Hl; [|reflexivity].
    apply last_Some in Hl. destruct Hl as [init Hl].
    rewrite (Hlast _ _ Hl). reflexivity.
  - intros m Hpt Hm. rewrite on_stream_chunk_messages, Hpt, Hm. reflexivity.
  - intros Hpt Hm. unfold on_stream_chunk. rewrite Hpt, Hm. reflexivity.
Qed.

(** *** The partial message *)

Lemma partial_only_last_snoc (l : list message) (m : message) :
  partial_only_last (l ++ [m]) = forallb (fun m => negb (__partial_agent m)) l.
Proof. unfold partial_only_last. rewrite removelast_last. reflexivity. Qed.

Lemma merge_partial_keeps now pt (l : list message) :
  partial_only_last l = true -> partial_only_last (merge_partial now pt l) = true.
Proof.
  intros H. unfold merge_partial.
  destruct (last l) as [x|] eqn:Hl.
  - apply last_Some in Hl. destruct Hl as [init ->].
    rewrite partial_only_last_snoc in H.
    destruct (__partial_agent x) eqn:Hx.
    + rewrite removelast_last, partial_only_last_snoc. exact H.
    + rewrite partial_only_last_snoc, forallb_app, H. simpl. rewrite Hx. reflexivity.
  - apply last_None in Hl. subst l. reflexivity.
Qed.

Lemma partial_only_last_count (l : list message) :
  partial_only_last l = true -> (count_partial l <= 1)%nat.
Proof.
  intros H. unfold count_partial.
  destruct (last l) as [x|] eqn:Hl.
  - apply last_Some in Hl. destruct Hl as [init ->].
    rewrite partial_only_last_snoc in H.
    rewrite List.filter_app, length_app.
    assert (Hinit : List.filter __partial_agent init = []).
    { clear -H. induction init as [|a init IH]; [reflexivity|].
      simpl in *. apply andb_prop in H. destruct H as [Ha H].
      destruct (__partial_agent a); [discriminate|]. auto. }
    rewrite Hinit. simpl. destruct (__partial_agent x); simpl; lia.
  - apply last_None in Hl. subst l. simpl. lia.
Qed.

Lemma on_stream_chunk_keeps p (s : ChatWindow.state * world B) :
  no_final p = true ->
  partial_only_last (messages (fst s)) = true ->
  partial_only_last (messages (fst (on_stream_chunk (fst p) (snd p) s))) = true.
Proof.
  unfold no_final. intros Hp H.
  destruct (snd p) as [| |c]; [exact H|exact H|].
  rewrite on_stream_chunk_messages.
  destruct (final_message c); [discriminate|].
  destruct (truthy _); [|exact H].
  apply merge_partial_keeps. exact H.
Qed.

(** C10, as the code has it: over a stream that carries no final
    message, starting from a list in which at most the last message is
    partial, the list keeps at most one partial message and that message
    is the last one: successive [partial_text] chunks are concatenated
    into it. *)
Theorem partial_stays_single_and_last chunks (s : ChatWindow.state * world B) :
  forallb no_final chunks = true ->
  partial_only_last (messages (fst s)) = true ->
  partial_only_last (messages (fst (process chunks s))) = true
  /\ (count_partial (messages (fst (process chunks s))) <= 1)%nat.
Proof.
  intros Hc Hs.
  assert (H : partial_only_last (messages (fst (process chunks s))) = true).
  { unfold process. revert s Hs.
    induction chunks as [|p chunks IH]; intros s Hs; [exact Hs|].
    simpl in Hc. apply andb_prop in Hc. destruct Hc as [Hp Hc].
    simpl. apply IH; [exact Hc|]. apply on_stream_chunk_keeps; assumption. }
  split; [exact H|]. apply partial_only_last_count. exact H.
Qed.

(** C3: unmounting the chat window only removes its [stream_chunk]
    listener.  The component state and the state behind the commands
    (and with it every task) are as before, nothing is invoked, and every
    other listener stays registered. *)
Theorem unmount_only_unlistens un (s : ChatWindow.state * world B) :
  let s' := cleanup un s in
  fst s' = fst s
  /\ backend (snd s') = backend (snd s)
  /\ trace (snd s') = trace (snd s) ++ [EUnlisten un]
  /\ (forall e, In e (listeners (snd s')) <-> In e (listeners (snd s)) /\ fst e <> un).
Proof.
  intros s'. subst s'. unfold cleanup, unlisten. simpl.
  repeat split; try reflexivity.
  - apply filter_In in H. tauto.
  - apply filter_In in H. destruct H as [_ H].
    destruct (Nat.eqb_spec (fst e) un); [discriminate|assumption].
  - intros [Hin Hne]. apply filter_In. split; [exact Hin|].
    destruct (Nat.eqb_spec (fst e) un); [contradiction|reflexivity].
Qed.

(** While the component is mounted a chunk reaches its handler; after
    the cleanup it reaches nobody. *)
Lemma deliver_mounted_then_unmounted now p (s : ChatWindow.state * world B) :
  listeners (snd s) = [] ->
  deliver now p (snd (mount s)) = on_stream_chunk now p (snd (mount s))
  /\ deliver now p (cleanup (fst (mount s)) (snd (mount s)))
     = cleanup (fst (mount s)) (snd (mount s)).
Proof.
  destruct s as [st [ls n tr b]]. simpl. intros ->.
  unfold deliver, cleanup, unlisten. simpl. rewrite Nat.eqb_refl. simpl.
  split; reflexivity.
Qed.

(** *** The upload panel *)

Lemma Uint8Array_octets (data : list Byte.byte) :
  List.map (fun b => N.land b 0xFFFF) (UploadPanel.Uint8Array data)
    = UploadPanel.Uint8Array data
  /\ forallb (fun c => c <? 256) (UploadPanel.Uint8Array data) = true.
Proof.
  unfold UploadPanel.Uint8Array.
  induction data as [|b data [IH1 IH2]]; [split; reflexivity|].
  simpl. rewrite IH1, IH2. split.
  - f_equal. destruct b; reflexivity.
  - destruct b; reflexivity.
Qed.


(** Beyond it the spread throws. *)
Lemma to_base64_beyond (max_args : N) (data : list Byte.byte) :
  max_args < N.of_nat (length data) ->
  UploadPanel.to_base64 max_args data = inl RangeError.
Proof.
  intros H. unfold UploadPanel.to_base64, fromCharCode_spread.
  assert (Hl : length (UploadPanel.Uint8Array data) = length data)
    by apply length_map.
  rewrite Hl. apply N.leb_gt in H. rewrite H. reflexivity.
Qed.

Lemma length_zeros (k : nat) :
  N.of_nat (length (UploadPanel.zeros k)) = 2 ^ N.of_nat k.
Proof.
  induction k as [|k IH]; [reflexivity|].
  cbn [UploadPanel.zeros]. rewrite length_app, Nat2N.inj_add, IH.
  rewrite Nat2N.inj_succ, N.pow_succ_r'. lia.
Qed.

End FrontEnd.

(** C2, refuted as stated: a progress chunk is not rendered.  The
    handler returns the state it was given, whatever the percentage, so
    the view after the chunk is the view before it. *)
Lemma progress_chunk_not_rendered :
  ChatWindow.on_stream_chunk 3%N (ChatWindow.progress_chunk 50) Runs.s1 = Runs.s1
  /\ ChatWindow.render (fst (ChatWindow.on_stream_chunk 3%N (ChatWindow.progress_chunk 50) Runs.s1))
     = ChatWindow.render (fst (ChatWindow.on_stream_chunk 3%N (ChatWindow.progress_chunk 90) Runs.s1))
  /\ ChatWindow.render (fst (ChatWindow.on_stream_chunk 3%N (ChatWindow.progress_chunk 50) Runs.s1))
     = ChatWindow.render (fst Runs.s1).
Proof. repeat split. Qed.

Lemma stream_chunk_handling_witness :
  ChatWindow.messages
    (fst (ChatWindow.on_stream_chunk 3%N (ChatWindow.partial_chunk (JS.lit "lo")) Runs.s1))
  = [ChatWindow.Message (Some (JS.lit "u-1")) (JS.lit "user") (Some (JS.lit "hi")) false;
     ChatWindow.Message (Some (JS.lit "partial-2")) (JS.lit "agent")
                        (Some (JS.lit "Hello")) true].
Proof.
  destruct (stream_chunk_handling (B:=unit) 3%N
              (ChatWindow.Chunk (Some (JS.lit "lo")) None None) Runs.s1)
    as (_ & H & _).
  apply (H (JS.lit "lo")
           [ChatWindow.Message (Some (JS.lit "u-1")) (JS.lit "user") (Some (JS.lit "hi")) false]
           (ChatWindow.Message (Some (JS.lit "partial-2")) (JS.lit "agent")
                               (Some (JS.lit "Hel")) true));
    [reflexivity | discriminate | reflexivity | reflexivity].
Defined.

(** C10, refuted as stated: a final message is appended behind the
    partial one, which stays in the list; the next [partial_text] chunk
    then starts a second partial message. *)
Lemma partial_not_single_nor_last :
  let after2 := ChatWindow.process
                  [(1%N, ChatWindow.partial_chunk (JS.lit "Hel"));
                   (2%N, ChatWindow.final_chunk Runs.reply)] Runs.s0 in
  let after3 := ChatWindow.process
                  [(1%N, ChatWindow.partial_chunk (JS.lit "Hel"));
                   (2%N, ChatWindow.final_chunk Runs.reply);
                   (3%N, ChatWindow.partial_chunk (JS.lit "Bye"))] Runs.s0 in
  ChatWindow.partial_only_last (ChatWindow.messages (fst after2)) = false
  /\ ChatWindow.count_partial (ChatWindow.messages (fst after3)) = 2
  /\ ~ (ChatWindow.count_partial (ChatWindow.messages (fst after3)) <= 1).
Proof. repeat split. vm_compute. lia. Qed.

Lemma partial_stays_single_and_last_witness :
  let chunks := [(1%N, ChatWindow.partial_chunk (JS.lit "lo"));
                 (2%N, ChatWindow.progress_chunk 40);
                 (3%N, ChatWindow.Unparsable);
                 (4%N, ChatWindow.partial_chunk (JS.lit "!"))] in
  ChatWindow.partial_only_last (ChatWindow.messages (fst (ChatWindow.process chunks Runs.s1))) = true
  /\ ChatWindow.count_partial (ChatWindow.messages (fst (ChatWindow.process chunks Runs.s1))) <= 1.
Proof.
  apply (partial_stays_single_and_last (B:=unit)); reflexivity.
Defined.

(** C4, on a file of 1 MiB with an engine that accepts half a million
    arguments: the conversion throws [RangeError], [saveUploadedFile] is
    never reached, and the panel is left uploading at 10%. *)
Theorem onFileChange_large_file_throws :
  UploadPanel.onFileChange (B:=unit)
    (fun _ _ u => (u, Some (JS.lit "/uploads/video.mp4"))) 500000%N
    (UploadPanel.Build_Props (JS.lit "default") (JS.lit "localhost:50051"))
    (Some (UploadPanel.File (JS.lit "video.mp4") (UploadPanel.zeros 20)))
    (UploadPanel.State 0 false, Runs.w0)
  = (Some JS.RangeError,
     (UploadPanel.State 10 true,
      Tauri.World [] 0 [Tauri.ESetUploading true; Tauri.ESetProgress 10%N] tt)).
Proof.
  unfold UploadPanel.onFileChange.
  rewrite to_base64_beyond; [reflexivity|].
  cbn [UploadPanel.content]. rewrite length_zeros. reflexivity.
Qed.

Lemma onFileChange_small_file :
  UploadPanel.to_base64 500000%N [Byte.x4d; Byte.x61; Byte.x6e] = inr (JS.lit "TWFu").
Proof. reflexivity. Qed.

(* ===================================================================== *)
(** * Properties of the Task Store *)
(* ===================================================================== *)

Section TaskStoreFacts.
Import Model TaskStore.

Lemma Get_put_eq tid t st :
  tid < length (tasks st) -> Get tid (put tid t st) = Some t.
Proof. intros H. unfold Get, put. simpl. apply list_lookup_insert_eq. exact H. Qed.

Lemma Get_put_ne tid tid' t st :
  tid <> tid' -> Get tid (put tid' t st) = Get tid st.
Proof. intros H. unfold Get, put. simpl. apply list_lookup_insert_ne. congruence. Qed.

Lemma Get_Some_lt tid t st : Get tid st = Some t -> tid < length (tasks st).
Proof. unfold Get. apply lookup_lt_Some. Qed.

Lemma Get_put tid tid' t t' st :
  Get tid' st = Some t' ->
  Get tid (put tid' t st) = if decide (tid = tid') then Some t else Get tid st.
Proof.
  intros H. destruct (decide (tid = tid')) as [->|Hne].
  - apply Get_put_eq. eapply Get_Some_lt. exact H.
  - apply Get_put_ne. exact Hne.
Qed.

Lemma Get_insert tid tid' t t' st ev :
  Get tid' st = Some t' ->
  Get tid (Store (<[tid' := t]> (tasks st)) ev)
    = if decide (tid = tid') then Some t else Get tid st.
Proof. intros H. exact (Get_put tid tid' t t' st H). Qed.

Lemma events_put tid t st : events (put tid t st) = events st.
Proof. reflexivity. Qed.

(** One operation, seen from one task: the task stays, its progress
    does not go down, and its state is kept or moves along an edge. *)
Lemma apply_task o st tid t :
  Get tid st = Some t ->
  exists t', Get tid (apply o st) = Some t'
             /\ progress t <= progress t'
             /\ (state t' = state t \/ store_edge (state t) (state t') = true).
Proof.
  intros Hg.
  assert (Hsame : exists t', Get tid st = Some t' /\ progress t <= progress t'
                    /\ (state t' = state t \/ store_edge (state t) (state t') = true))
    by (exists t; auto).
  destruct o as [conv cap inp|tid0 aid|tid0|tid0 p|tid0 r|tid0 e|tid0|tid0]; cbn [apply].
  - exists t. unfold Get in *. simpl. rewrite lookup_app_l by (eapply lookup_lt_Some; eauto). auto.
  - unfold MarkAssigned. destruct (Get tid0 st) as [t0|] eqn:H0; [|exact Hsame].
    destruct (state t0) eqn:Hs0; try exact Hsame. cbn [settle].
    rewrite (Get_put _ _ _ _ _ H0). destruct (decide (tid = tid0)) as [->|]; [|exact Hsame].
    eexists; split; [reflexivity|]. assert (t0 = t) by congruence. subst t0.
    simpl. rewrite Hs0. auto.
  - unfold MarkRunning. destruct (Get tid0 st) as [t0|] eqn:H0; [|exact Hsame].
    destruct (state t0) eqn:Hs0; try exact Hsame. cbn [settle].
    rewrite (Get_put _ _ _ _ _ H0). destruct (decide (tid = tid0)) as [->|]; [|exact Hsame].
    eexists; split; [reflexivity|]. assert (t0 = t) by congruence. subst t0.
    simpl. rewrite Hs0. auto.
  - unfold UpdateProgress. destruct (Get tid0 st) as [t0|] eqn:H0; [|exact Hsame].
    destruct (state t0) eqn:Hs0; try exact Hsame.
    destruct (Nat.ltb_spec p (progress t0)); [exact Hsame|].
    rewrite (Get_insert _ _ _ _ _ _ H0). destruct (decide (tid = tid0)) as [->|]; [|exact Hsame].
    eexists; split; [reflexivity|]. assert (t0 = t) by congruence. subst t0.
    simpl. auto.
  - unfold Complete. destruct (Get tid0 st) as [t0|] eqn:H0; [|exact Hsame].
    destruct (state t0) eqn:Hs0; try exact Hsame; cbn [settle];
      try (destruct (bool_decide _); exact Hsame);
      rewrite (Get_put _ _ _ _ _ H0); (destruct (decide (tid = tid0)) as [->|]; [|exact Hsame]);
      (eexists; split; [reflexivity|]); assert (t0 = t) by congruence; subst t0;
      simpl; rewrite Hs0; auto.
  - unfold Fail. destruct (Get tid0 st) as [t0|] eqn:H0; [|exact Hsame].
    destruct (state t0) eqn:Hs0; try exact Hsame; cbn [settle];
      try (destruct (bool_decide _); exact Hsame);
      rewrite (Get_put _ _ _ _ _ H0); (destruct (decide (tid = tid0)) as [->|]; [|exact Hsame]);
      (eexists; split; [reflexivity|]); assert (t0 = t) by congruence; subst t0;
      simpl; rewrite Hs0; auto.
  - unfold Cancel. destruct (Get tid0 st) as [t0|] eqn:H0; [|exact Hsame].
    destruct (terminal (state t0)) eqn:Hs0; [exact Hsame|]. cbn [settle].
    rewrite (Get_put _ _ _ _ _ H0). destruct (decide (tid = tid0)) as [->|]; [|exact Hsame].
    eexists; split; [reflexivity|]. assert (t0 = t) by congruence. subst t0.
    simpl. destruct (state t); try discriminate; auto.
  - unfold ReturnToPending. destruct (Get tid0 st) as [t0|] eqn:H0; [|exact Hsame].
    destruct (state t0) eqn:Hs0; try exact Hsame; cbn [settle];
      rewrite (Get_put _ _ _ _ _ H0); (destruct (decide (tid = tid0)) as [->|]; [|exact Hsame]);
      (eexists; split; [reflexivity|]); assert (t0 = t) by congruence; subst t0;
      simpl; rewrite Hs0; auto.
Qed.

(** A task that appears is new and Pending. *)
Lemma apply_new_task o st tid t' :
  Get tid st = None -> Get tid (apply o st) = Some t' -> state t' = Pending.
Proof.
  intros Hn Hs.
  assert (Hput : forall tid0 t0 x, Get tid0 st = Some t0 -> Get tid (put tid0 x st) = Some t' -> False).
  { intros tid0 t0 x H0 H1. rewrite (Get_put _ _ _ _ _ H0) in H1.
    destruct (decide (tid = tid0)); congruence. }
  destruct o as [conv cap inp|tid0 aid|tid0|tid0 p|tid0 r|tid0 e|tid0|tid0]; cbn [apply] in Hs.
  - unfold Get, Submit in *. cbn [snd tasks] in Hs.
    apply lookup_ge_None in Hn.
    destruct (decide (tid = length (tasks st))) as [->|Hne].
    + rewrite lookup_app_r, Nat.sub_diag in Hs by lia.
      inversion Hs. reflexivity.
    + rewrite lookup_ge_None_2 in Hs; [discriminate|]. rewrite length_app. simpl. lia.
  - unfold MarkAssigned in Hs. destruct (Get tid0 st) as [t0|] eqn:H0; cbn [settle] in Hs; [|congruence].
    destruct (state t0); cbn [settle] in Hs; try congruence. exfalso; eauto.
  - unfold MarkRunning in Hs. destruct (Get tid0 st) as [t0|] eqn:H0; cbn [settle] in Hs; [|congruence].
    destruct (state t0); cbn [settle] in Hs; try congruence. exfalso; eauto.
  - unfold UpdateProgress in Hs. destruct (Get tid0 st) as [t0|] eqn:H0; [|congruence].
    destruct (state t0); try congruence.
    destruct (p <? progress t0); [congruence|]. exfalso.
    rewrite (Get_insert _ _ _ _ _ _ H0) in Hs. destruct (decide (tid = tid0)); congruence.
  - unfold Complete in Hs. destruct (Get tid0 st) as [t0|] eqn:H0; cbn [settle] in Hs; [|congruence].
    destruct (state t0); cbn [settle] in Hs; try congruence;
      try (destruct (bool_decide _); cbn [settle] in Hs; congruence); exfalso; eauto.
  - unfold Fail in Hs. destruct (Get tid0 st) as [t0|] eqn:H0; cbn [settle] in Hs; [|congruence].
    destruct (state t0); cbn [settle] in Hs; try congruence;
      try (destruct (bool_decide _); cbn [settle] in Hs; congruence); exfalso; eauto.
  - unfold Cancel in Hs. destruct (Get tid0 st) as [t0|] eqn:H0; cbn [settle] in Hs; [|congruence].
    destruct (terminal (state t0)); cbn [settle] in Hs; [congruence|]. exfalso; eauto.
  - unfold ReturnToPending in Hs.
    destruct (Get tid0 st) as [t0|] eqn:H0; cbn [settle] in Hs; [|congruence].
    destruct (state t0); cbn [settle] in Hs; try congruence; exfalso; eauto.
Qed.

End TaskStoreFacts.

Section TaskStoreClaims.
Import Model TaskStore.

Lemma state_of_Some tid st a :
  state_of tid st = Some a <-> exists t, Get tid st = Some t /\ state t = a.
Proof.
  unfold state_of. destruct (Get tid st) as [t|]; simpl; split.
  - intros H. exists t. split; congruence.
  - intros [t' [H1 H2]]. congruence.
  - discriminate.
  - intros [t' [H1 _]]. discriminate.
Qed.

(** *** Progress *)

Lemma apply_events o st :
  events (apply o st) = events st
  \/ exists tid p t,
       Get tid st = Some t /\ progress t <= p
       /\ events (apply o st) = events st ++ [(tid, p)]
       /\ Get tid (apply o st) = Some (set_progress p t).
Proof.
  destruct o as [conv cap inp|tid0 aid|tid0|tid0 p|tid0 r|tid0 e|tid0|tid0]; cbn [apply].
  - left. reflexivity.
  - left. unfold MarkAssigned. destruct (Get tid0 st) as [t0|]; [|reflexivity].
    destruct (state t0); reflexivity.
  - left. unfold MarkRunning. destruct (Get tid0 st) as [t0|]; [|reflexivity].
    destruct (state t0); reflexivity.
  - unfold UpdateProgress. destruct (Get tid0 st) as [t0|] eqn:H0; [|left; reflexivity].
    destruct (state t0); try (left; reflexivity).
    destruct (Nat.ltb_spec p (progress t0)); [left; reflexivity|].
    right. exists tid0, p, t0. repeat split; auto.
    rewrite (Get_insert _ _ _ _ _ _ H0). destruct (decide (tid0 = tid0)); congruence.
  - left. unfold Complete. destruct (Get tid0 st) as [t0|]; [|reflexivity].
    destruct (state t0); try reflexivity. destruct (bool_decide _); reflexivity.
  - left. unfold Fail. destruct (Get tid0 st) as [t0|]; [|reflexivity].
    destruct (state t0); try reflexivity. destruct (bool_decide _); reflexivity.
  - left. unfold Cancel. destruct (Get tid0 st) as [t0|]; [|reflexivity].
    destruct (terminal (state t0)); reflexivity.
  - left. unfold ReturnToPending. destruct (Get tid0 st) as [t0|]; [|reflexivity].
    destruct (state t0); reflexivity.
Qed.

Lemma bounded_empty : bounded empty.
Proof. intros tid. split; [constructor|]. intros p []. Qed.

Lemma bounded_apply o st : bounded st -> bounded (apply o st).
Proof.
  intros Hb tid. destruct (Hb tid) as [Hs Hp].
  destruct (apply_events o st) as [He|(tid0 & p & t0 & H0 & Hle & He & Hg)];
    unfold seen in *; rewrite He.
  - split; [exact Hs|]. intros q Hq.
    destruct (Hp q Hq) as [t [Ht Hqt]].
    destruct (apply_task o st tid t Ht) as [t' [Ht' [Hpt _]]].
    exists t'. split; [exact Ht'|lia].
  - rewrite List.filter_app, fmap_app. simpl.
    destruct (Nat.eqb_spec tid0 tid) as [->|Hne]; simpl.
    + split.
      * apply StronglySorted_app_2; [|exact Hs|repeat constructor].
        intros x1 x2 H1 H2. apply list_elem_of_In in H1.
        apply list_elem_of_In in H2. destruct H2 as [<-|[]].
        destruct (Hp x1 H1) as [t [Ht Hx]]. assert (t = t0) by congruence. subst. lia.
      * intros q Hq. apply in_app_or in Hq. exists (set_progress p t0).
        split; [exact Hg|]. simpl. destruct Hq as [Hq|[<-|[]]]; [|lia].
        destruct (Hp q Hq) as [t [Ht Hx]]. assert (t = t0) by congruence. subst. lia.
    + rewrite app_nil_r. split; [exact Hs|]. intros q Hq.
      destruct (Hp q Hq) as [t [Ht Hqt]].
      destruct (apply_task o st tid t Ht) as [t' [Ht' [Hpt _]]].
      exists t'. split; [exact Ht'|lia].
Qed.

Lemma bounded_run ops st : bounded st -> bounded (run ops st).
Proof.
  revert st. induction ops as [|o ops IH]; intros st Hb; [exact Hb|].
  simpl. apply IH. apply bounded_apply. exact Hb.
Qed.

Lemma observed_suffix cursor tid st :
  exists before, seen tid st = before ++ observed cursor tid st.
Proof.
  unfold seen, observed.
  exists (snd <$> List.filter (fun e => Nat.eqb (fst e) tid) (take cursor (events st))).
  rewrite <- fmap_app, <- List.filter_app, take_drop. reflexivity.
Qed.

Lemma bounded_put st tid t t' :
  bounded st -> Get tid st = Some t -> progress t <= progress t' ->
  bounded (put tid t' st).
Proof.
  intros Hb Hg Hle x. destruct (Hb x) as [Hs Hp]. split; [exact Hs|].
  intros q Hq. destruct (Hp q Hq) as (tx & Hx & Hqx).
  rewrite (Get_put _ _ _ _ _ Hg). case_decide.
  - subst x. exists t'. split; [reflexivity|].
    assert (E : Some t = Some tx) by (rewrite <- Hg; exact Hx). inversion E. subst tx. lia.
  - exists tx. auto.
Qed.

Lemma Complete_from_active st tid t r :
  Get tid st = Some t -> state t = Running \/ state t = Assigned ->
  Complete tid r st = inr (put tid (set_result (Some r) (set_state Succeeded t)) st).
Proof. intros Hg [Hs|Hs]; unfold Complete; rewrite Hg, Hs; reflexivity. Qed.

Lemma Fail_from_active st tid t e :
  Get tid st = Some t -> state t = Running \/ state t = Assigned ->
  Fail tid e st = inr (put tid (set_error (Some e) (set_state Failed t)) st).
Proof. intros Hg [Hs|Hs]; unfold Fail; rewrite Hg, Hs; reflexivity. Qed.

(** C6: a [Complete] or [Fail] on a Running or Assigned task goes
    through and records its outcome, so that a second call with the same
    outcome returns the store as it is, and a second call with another
    result, another error or the other kind of outcome is rejected with
    [DoubleCompletion].  On every terminal task, however it got there, the
    outcome the task has is a no-op and any other is [DoubleCompletion],
    the store staying as it was.  On a Pending task both calls are
    rejected: a call that changes the store found the task Running or
    Assigned. *)
Theorem completion_idempotent_or_rejected st tid t :
  Get tid st = Some t ->
  (state t = Running \/ state t = Assigned ->
   (forall r, exists st1,
       Complete tid r st = inr st1
       /\ state_of tid st1 = Some Succeeded
       /\ Complete tid r st1 = inr st1
       /\ (forall r', r' <> r -> Complete tid r' st1 = inl DoubleCompletion)
       /\ (forall e, Fail tid e st1 = inl DoubleCompletion))
   /\ (forall e, exists st1,
         Fail tid e st = inr st1
         /\ state_of tid st1 = Some Failed
         /\ Fail tid e st1 = inr st1
         /\ (forall e', e' <> e -> Fail tid e' st1 = inl DoubleCompletion)
         /\ (forall r, Complete tid r st1 = inl DoubleCompletion)))
  /\ (forall r, state t = Succeeded -> result t = Some r -> Complete tid r st = inr st)
  /\ (forall e, state t = Failed -> error t = Some e -> Fail tid e st = inr st)
  /\ (forall r, terminal (state t) = true ->
                ~ (state t = Succeeded /\ result t = Some r) ->
                Complete tid r st = inl DoubleCompletion
                /\ apply (OComplete tid r) st = st)
  /\ (forall e, terminal (state t) = true ->
                ~ (state t = Failed /\ error t = Some e) ->
                Fail tid e st = inl DoubleCompletion
                /\ apply (OFail tid e) st = st)
  /\ (forall r st', Complete tid r st = inr st' ->
                    (state t = Running \/ state t = Assigned)
                    \/ (st' = st /\ state t = Succeeded /\ result t = Some r))
  /\ (forall e st', Fail tid e st = inr st' ->
                    (state t = Running \/ state t = Assigned)
                    \/ (st' = st /\ state t = Failed /\ error t = Some e))
  /\ (state t = Pending ->
      forall r e, Complete tid r st = inl InvalidTransition
                  /\ Fail tid e st = inl InvalidTransition).
Proof.
  intros Hg. split; [|repeat split].
  - intros Hact. split.
    + intros r. eexists. split; [apply (Complete_from_active _ _ _ _ Hg Hact)|].
      assert (Hg1 : Get tid (put tid (set_result (Some r) (set_state Succeeded t)) st)
                    = Some (set_result (Some r) (set_state Succeeded t))).
      { rewrite (Get_put _ _ _ _ _ Hg). case_decide; [reflexivity|congruence]. }
      split; [unfold state_of; rewrite Hg1; reflexivity|].
      split; [|split].
      * unfold Complete. rewrite Hg1. simpl.
        rewrite bool_decide_eq_true_2 by reflexivity. reflexivity.
      * intros r' Hr'. unfold Complete. rewrite Hg1. simpl.
        rewrite bool_decide_eq_false_2; [reflexivity|congruence].
      * intros e. unfold Fail. rewrite Hg1. reflexivity.
    + intros e. eexists. split; [apply (Fail_from_active _ _ _ _ Hg Hact)|].
      assert (Hg1 : Get tid (put tid (set_error (Some e) (set_state Failed t)) st)
                    = Some (set_error (Some e) (set_state Failed t))).
      { rewrite (Get_put _ _ _ _ _ Hg). case_decide; [reflexivity|congruence]. }
      split; [unfold state_of; rewrite Hg1; reflexivity|].
      split; [|split].
      * unfold Fail. rewrite Hg1. simpl.
        rewrite bool_decide_eq_true_2 by reflexivity. reflexivity.
      * intros e' He'. unfold Fail. rewrite Hg1. simpl.
        rewrite bool_decide_eq_false_2; [reflexivity|congruence].
      * intros r. unfold Complete. rewrite Hg1. reflexivity.
  - intros r Hs Hr. unfold Complete. rewrite Hg, Hs.
    rewrite bool_decide_eq_true_2 by exact Hr. reflexivity.
  - intros e Hs He. unfold Fail. rewrite Hg, Hs.
    rewrite bool_decide_eq_true_2 by exact He. reflexivity.
  - unfold Complete. rewrite Hg.
    destruct (state t) eqn:Hs; try discriminate; try reflexivity.
    rewrite bool_decide_eq_false_2; [reflexivity|tauto].
  - cbn [apply]. unfold Complete. rewrite Hg.
    destruct (state t) eqn:Hs; try discriminate; try reflexivity.
    destruct (bool_decide _); reflexivity.
  - unfold Fail. rewrite Hg.
    destruct (state t) eqn:Hs; try discriminate; try reflexivity.
    rewrite bool_decide_eq_false_2; [reflexivity|tauto].
  - cbn [apply]. unfold Fail. rewrite Hg.
    destruct (state t) eqn:Hs; try discriminate; try reflexivity.
    destruct (bool_decide _); reflexivity.
  - intros r st'. unfold Complete. rewrite Hg.
    destruct (state t) eqn:Hs; try discriminate; auto.
    destruct (bool_decide (result t = Some r)) eqn:Hr; [|discriminate].
    apply bool_decide_eq_true_1 in Hr. intros H. right. split; [congruence|auto].
  - intros e st'. unfold Fail. rewrite Hg.
    destruct (state t) eqn:Hs; try discriminate; auto.
    destruct (bool_decide (error t = Some e)) eqn:He; [|discriminate].
    apply bool_decide_eq_true_1 in He. intros H. right. split; [congruence|auto].
  - unfold Complete. rewrite Hg, H. reflexivity.
  - unfold Fail. rewrite Hg, H. reflexivity.
Qed.

End TaskStoreClaims.

Lemma completion_idempotent_or_rejected_witness :
  (exists st1,
      TaskStore.Fail 0 Scenarios.disk_full Scenarios.assigned_store = inr st1
      /\ TaskStore.state_of 0 st1 = Some Model.Failed
      /\ TaskStore.Fail 0 Scenarios.disk_full st1 = inr st1
      /\ TaskStore.Complete 0 "R" st1 = inl Model.DoubleCompletion)
  /\ TaskStore.Complete 0 "R" Scenarios.completed_store = inr Scenarios.completed_store
  /\ TaskStore.Complete 0 "S" Scenarios.completed_store = inl Model.DoubleCompletion.
Proof.
  split.
  - destruct (completion_idempotent_or_rejected Scenarios.assigned_store 0
                Scenarios.assigned_task eq_refl) as (H0 & _).
    destruct H0 as (_ & Hf); [right; reflexivity|].
    destruct (Hf Scenarios.disk_full) as (st1 & H1 & H2 & H3 & _ & H5).
    exists st1. repeat split; auto.
  - destruct (completion_idempotent_or_rejected Scenarios.completed_store 0
                Scenarios.completed_task eq_refl) as (_ & H1 & _ & H3 & _).
    split.
    + apply H1; reflexivity.
    + apply H3; [reflexivity | intros [_ H]; discriminate H].
Defined.

(* ===================================================================== *)
(** * Properties of the Agent Registry *)
(* ===================================================================== *)

Section RegistryFacts.
Import Model Registry.

Lemma insert_by_stamp_In x y l :
  In x (insert_by_stamp y l) <-> x = y \/ In x l.
Proof.
  induction l as [|z l IH]; simpl.
  - intuition.
  - destruct (snd y <? snd z); simpl; [intuition|]. rewrite IH. intuition.
Qed.

Lemma sort_by_stamp_In x l : In x (sort_by_stamp l) <-> In x l.
Proof.
  unfold sort_by_stamp. induction l as [|y l IH]; simpl; [tauto|].
  rewrite insert_by_stamp_In, IH. intuition.
Qed.

Lemma idle_from_In i cap reg aid k :
  In (aid, k) (idle_from i cap reg) <->
  exists a, i <= aid /\ reg !! (aid - i) = Some a
            /\ state a = Idle /\ capability a = cap /\ last_assigned_at a = k.
Proof.
  revert i. induction reg as [|a reg IH]; intros i; simpl.
  - split; [tauto|]. intros (a & _ & H & _). discriminate.
  - assert (Htail : (exists a', S i <= aid /\ reg !! (aid - S i) = Some a'
                       /\ state a' = Idle /\ capability a' = cap /\ last_assigned_at a' = k)
                    <-> (exists a', i <= aid /\ aid <> i /\ (a :: reg) !! (aid - i) = Some a'
                       /\ state a' = Idle /\ capability a' = cap /\ last_assigned_at a' = k)).
    { split; intros (a' & H1 & H2).
      - exists a'. split; [lia|]. split; [lia|].
        replace (aid - i) with (S (aid - S i)) by lia. exact H2.
      - destruct H2 as (Hne & H2). exists a'. split; [lia|].
        replace (aid - i) with (S (aid - S i)) in H2 by lia. exact H2. }
    unfold is_idle, serves.
    destruct (bool_decide_reflect (state a = Idle)) as [Hi|Hi];
      destruct (bool_decide_reflect (capability a = cap)) as [Hc|Hc]; simpl;
      rewrite ?IH, Htail.
    + split.
      * intros [H|(a' & H1 & H2 & H3)].
        -- inversion H; subst. exists a. rewrite Nat.sub_diag. simpl. auto.
        -- exists a'. auto.
      * intros (a' & H1 & H2 & H3).
        destruct (decide (aid = i)) as [->|Hne].
        -- left. rewrite Nat.sub_diag in H2. simpl in H2. inversion H2; subst a'.
           destruct H3 as (_ & _ & H3). rewrite H3. reflexivity.
        -- right. exists a'. auto.
    + split.
      * intros (a' & H1 & _ & H3). exists a'. auto.
      * intros (a' & H1 & H2 & H3). exists a'. split; [auto|]. split; [|auto].
        intros ->. rewrite Nat.sub_diag in H2. simpl in H2. inversion H2; subst a'. tauto.
    + split.
      * intros (a' & H1 & _ & H3). exists a'. auto.
      * intros (a' & H1 & H2 & H3). exists a'. split; [auto|]. split; [|auto].
        intros ->. rewrite Nat.sub_diag in H2. simpl in H2. inversion H2; subst a'. tauto.
    + split.
      * intros (a' & H1 & _ & H3). exists a'. auto.
      * intros (a' & H1 & H2 & H3). exists a'. split; [auto|]. split; [|auto].
        intros ->. rewrite Nat.sub_diag in H2. simpl in H2. inversion H2; subst a'. tauto.
Qed.

(** The agents [ListIdleByCapability] returns are exactly the Idle
    agents of that capability. *)
Lemma ListIdleByCapability_In cap reg aid :
  In aid (ListIdleByCapability cap reg) <->
  exists a, reg !! aid = Some a /\ state a = Idle /\ capability a = cap.
Proof.
  unfold ListIdleByCapability. rewrite in_map_iff. split.
  - intros ([aid' k] & Hf & Hin). simpl in Hf. subst aid'.
    apply sort_by_stamp_In, idle_from_In in Hin.
    destruct Hin as (a & _ & H & Hi & Hc & _).
    rewrite Nat.sub_0_r in H. exists a. auto.
  - intros (a & H & Hi & Hc). exists (aid, last_assigned_at a). split; [reflexivity|].
    apply sort_by_stamp_In, idle_from_In. exists a. rewrite Nat.sub_0_r.
    split; [lia|auto].
Qed.

Lemma ListIdleByCapability_nil cap reg :
  (forall aid a, reg !! aid = Some a -> state a = Idle -> capability a <> cap) ->
  ListIdleByCapability cap reg = [].
Proof.
  intros H. destruct (ListIdleByCapability cap reg) as [|aid l] eqn:Hl; [reflexivity|].
  exfalso.
  assert (Hin : In aid (ListIdleByCapability cap reg)) by (rewrite Hl; left; reflexivity).
  apply ListIdleByCapability_In in Hin. destruct Hin as (a & Ha & Hi & Hc).
  exact (H aid a Ha Hi Hc).
Qed.

End RegistryFacts.

(* ===================================================================== *)
(** * Properties of the Agent Manager *)
(* ===================================================================== *)

Section ManagerFacts.
Import Model AgentManager.


(** An operation that is neither [MarkAssigned] nor [Cancel] of a
    Pending task leaves that task as it is. *)
Lemma apply_keeps_pending o st tid t :
  TaskStore.Get tid st = Some t ->
  TaskStore.state t = Pending ->
  o <> TaskStore.OCancel tid ->
  (forall aid, o <> TaskStore.OMarkAssigned tid aid) ->
  TaskStore.Get tid (TaskStore.apply o st) = Some t.
Proof.
  intros Hg Hs Hc Ha.
  destruct o as [conv cap inp|tid0 aid|tid0|tid0 p|tid0 r|tid0 e|tid0|tid0]; cbn [TaskStore.apply].
  - unfold TaskStore.Get, TaskStore.Submit in *. simpl.
    rewrite lookup_app_l by (eapply lookup_lt_Some; eauto). exact Hg.
  - unfold TaskStore.MarkAssigned.
    destruct (TaskStore.Get tid0 st) as [t0|] eqn:H0; [|exact Hg].
    destruct (TaskStore.state t0) eqn:Hs0; try exact Hg. cbn [TaskStore.settle].
    rewrite (Get_put _ _ _ _ _ H0). destruct (decide (tid = tid0)) as [->|]; [|exact Hg].
    exfalso. exact (Ha aid eq_refl).
  - unfold TaskStore.MarkRunning.
    destruct (TaskStore.Get tid0 st) as [t0|] eqn:H0; [|exact Hg].
    destruct (TaskStore.state t0) eqn:Hs0; try exact Hg. cbn [TaskStore.settle].
    rewrite (Get_put _ _ _ _ _ H0). destruct (decide (tid = tid0)) as [->|]; [|exact Hg].
    congruence.
  - unfold TaskStore.UpdateProgress.
    destruct (TaskStore.Get tid0 st) as [t0|] eqn:H0; [|exact Hg].
    destruct (TaskStore.state t0) eqn:Hs0; try exact Hg.
    destruct (p <? TaskStore.progress t0); [exact Hg|].
    rewrite (Get_insert _ _ _ _ _ _ H0). destruct (decide (tid = tid0)) as [->|]; [|exact Hg].
    congruence.
  - unfold TaskStore.Complete.
    destruct (TaskStore.Get tid0 st) as [t0|] eqn:H0; [|exact Hg].
    destruct (TaskStore.state t0) eqn:Hs0; try exact Hg; cbn [TaskStore.settle];
      try (destruct (bool_decide _); exact Hg);
      rewrite (Get_put _ _ _ _ _ H0); (destruct (decide (tid = tid0)) as [->|]; [|exact Hg]);
      congruence.
  - unfold TaskStore.Fail.
    destruct (TaskStore.Get tid0 st) as [t0|] eqn:H0; [|exact Hg].
    destruct (TaskStore.state t0) eqn:Hs0; try exact Hg; cbn [TaskStore.settle];
      try (destruct (bool_decide _); exact Hg);
      rewrite (Get_put _ _ _ _ _ H0); (destruct (decide (tid = tid0)) as [->|]; [|exact Hg]);
      congruence.
  - unfold TaskStore.Cancel.
    destruct (TaskStore.Get tid0 st) as [t0|] eqn:H0; [|exact Hg].
    destruct (terminal (TaskStore.state t0)); [exact Hg|]. cbn [TaskStore.settle].
    rewrite (Get_put _ _ _ _ _ H0). destruct (decide (tid = tid0)) as [->|]; [|exact Hg].
    congruence.
  - unfold TaskStore.ReturnToPending.
    destruct (TaskStore.Get tid0 st) as [t0|] eqn:H0; [|exact Hg].
    destruct (TaskStore.state t0) eqn:Hs0; try exact Hg; cbn [TaskStore.settle];
      rewrite (Get_put _ _ _ _ _ H0); (destruct (decide (tid = tid0)) as [->|]; [|exact Hg]);
      congruence.
Qed.

Lemma waiting_with_store cap tid m st :
  (forall t, TaskStore.Get tid (store m) = Some t -> TaskStore.state t = Pending ->
             TaskStore.Get tid st = Some t) ->
  waiting cap tid m -> waiting cap tid (with_store st m).
Proof. intros H (t & Hg & Hs & Hc). exists t. simpl. auto. Qed.

Lemma waiting_apply cap tid m o :
  o <> TaskStore.OCancel tid ->
  (forall aid, o <> TaskStore.OMarkAssigned tid aid) ->
  waiting cap tid m -> waiting cap tid (with_store (TaskStore.apply o (store m)) m).
Proof.
  intros Hc Ha. apply waiting_with_store. intros t Hg Hs.
  apply apply_keeps_pending; assumption.
Qed.

Lemma starved_no_idle cap m :
  starved cap m -> Registry.ListIdleByCapability cap (registry m) = [].
Proof.
  intros H. apply ListIdleByCapability_nil. intros aid a Ha Hi Hc.
  unfold starved in H. rewrite Forall_forall in H.
  specialize (H a (list_elem_of_lookup_2 _ _ _ Ha)).
  unfold Registry.serves, Registry.live in H. rewrite Hi in H.
  rewrite bool_decide_eq_true_2 in H by exact Hc. discriminate.
Qed.

Lemma starved_agent cap m aid a :
  starved cap m -> registry m !! aid = Some a ->
  Registry.serves cap a && Registry.live a = false.
Proof.
  intros H Ha. unfold starved in H. rewrite Forall_forall in H.
  apply H. eapply list_elem_of_lookup_2. exact Ha.
Qed.

Lemma starved_with_registry cap m aid a' :
  starved cap m ->
  Registry.serves cap a' && Registry.live a' = false ->
  starved cap (with_registry (<[aid := a']> (registry m)) m).
Proof.
  intros H Ha. unfold starved in *. simpl.
  apply Forall_insert; assumption.
Qed.

Lemma stalled_set_agent_state cap tid aid s m :
  (forall a, registry m !! aid = Some a ->
             Registry.live a = true \/ Registry.live (Registry.set_state s a) = false) ->
  stalled cap tid m -> stalled cap tid (set_agent_state aid s m).
Proof.
  intros Hs [Hw Hst]. unfold set_agent_state.
  destruct (registry m !! aid) as [a|] eqn:Ha; [|split; assumption].
  split; [exact Hw|]. apply starved_with_registry; [exact Hst|].
  pose proof (starved_agent _ _ _ _ Hst Ha) as H.
  unfold Registry.serves in *. simpl.
  destruct (bool_decide (Registry.capability a = cap)); [|reflexivity]. simpl in *.
  destruct (Hs a eq_refl) as [Hl|Hl]; [congruence|exact Hl].
Qed.

Lemma stalled_requeue cap tid tid' m :
  stalled cap tid m -> stalled cap tid (requeue tid' m).
Proof.
  intros [Hw Hst]. unfold requeue.
  destruct (TaskStore.Get tid' (store m)) as [t'|] eqn:Hg'; [|split; assumption].
  destruct (bool_decide (TaskStore.state t' = Assigned) || bool_decide (TaskStore.state t' = Running))
    eqn:Hheld; [|split; assumption].
  assert (Hne : tid <> tid').
  { intros ->. destruct Hw as (t & Hg & Hs & _).
    assert (t' = t) by congruence. subst t'. rewrite Hs in Hheld. discriminate. }
  destruct (max_retries (cfg m) <=? S (TaskStore.retries t')).
  - split; [|exact Hst].
    apply (waiting_apply cap tid m (TaskStore.OFail tid' agent_unavailable));
      [congruence | congruence | exact Hw].
  - split; [|exact Hst].
    apply (waiting_apply cap tid m (TaskStore.OReturnToPending tid'));
      [congruence | congruence | exact Hw].
Qed.

Lemma stalled_lose_agent cap tid aid s m :
  s = Unresponsive \/ s = Deregistered ->
  stalled cap tid m -> stalled cap tid (lose_agent aid s m).
Proof.
  intros Hs H. unfold lose_agent.
  assert (H1 : stalled cap tid (set_agent_state aid s m)).
  { apply stalled_set_agent_state; [|exact H].
    intros a _. right. destruct Hs as [->| ->]; reflexivity. }
  destruct (held_task aid m); [apply stalled_requeue|]; exact H1.
Qed.

Lemma stalled_release cap tid aid m :
  stalled cap tid m -> stalled cap tid (release aid m).
Proof.
  intros H. unfold release. destruct aid as [a|]; [|exact H].
  destruct (registry m !! a) as [ag|] eqn:Ha; [|exact H].
  destruct (bool_decide_reflect (Registry.state ag = Busy)) as [Hb|Hb]; [|exact H].
  apply stalled_set_agent_state; [|exact H].
  intros a' Ha'. left. assert (a' = ag) by congruence. subst a'.
  unfold Registry.live. rewrite Hb. reflexivity.
Qed.

Lemma stalled_assign_one cap tid tid' aid m a :
  tid' <> tid ->
  registry m !! aid = Some a -> Registry.live a = true ->
  stalled cap tid m -> stalled cap tid (assign_one tid' aid m).
Proof.
  intros Hne Ha Hl [Hw Hst]. unfold assign_one.
  destruct (TaskStore.MarkAssigned tid' aid (store m)) as [e|st] eqn:Hm; [split; assumption|].
  rewrite Ha. split.
  - pose proof (waiting_apply cap tid m (TaskStore.OMarkAssigned tid' aid)) as H.
    cbn [TaskStore.apply] in H. rewrite Hm in H. cbn [TaskStore.settle] in H.
    destruct H as (t & Hg & Hs & Hc); [congruence|congruence|exact Hw|].
    exists t. auto.
  - pose proof (starved_agent _ _ _ _ Hst Ha) as H. rewrite Hl, andb_true_r in H.
    unfold starved in *. simpl. apply Forall_insert; [exact Hst|].
    unfold Registry.serves in *. simpl. rewrite H. reflexivity.
Qed.

Lemma stalled_assign_loop cap tid ids m :
  stalled cap tid m -> stalled cap tid (assign_loop ids m).
Proof.
  revert m. induction ids as [|tid' ids IH]; intros m H; [exact H|].
  simpl. destruct (TaskStore.Get tid' (store m)) as [t'|] eqn:Hg'; [|apply IH; exact H].
  destruct (Registry.ListIdleByCapability (TaskStore.capability_required t') (registry m))
    as [|aid l] eqn:Hl.
  - destruct (stop_at_unmatched (cfg m)); [exact H|apply IH; exact H].
  - assert (Hin : In aid (Registry.ListIdleByCapability
                            (TaskStore.capability_required t') (registry m)))
      by (rewrite Hl; left; reflexivity).
    apply ListIdleByCapability_In in Hin. destruct Hin as (a & Ha & Hi & Hc).
    apply IH. apply (stalled_assign_one cap tid tid' aid m a); auto.
    + intros ->. destruct H as [(t & Hg & Hs & Hcap) Hst].
      assert (t' = t) by congruence. subst t'.
      rewrite Hcap, (starved_no_idle _ _ Hst) in Hl. discriminate.
    + unfold Registry.live. rewrite Hi. reflexivity.
Qed.

Lemma stalled_assign cap tid m : stalled cap tid m -> stalled cap tid (assign m).
Proof. apply stalled_assign_loop. Qed.

Lemma stalled_sweep cap tid now m : stalled cap tid m -> stalled cap tid (sweep now m).
Proof.
  unfold sweep. generalize (seq 0 (length (registry m))). intros ids. revert m.
  induction ids as [|aid ids IH]; intros m H; [exact H|].
  simpl. apply IH.
  repeat case_match; try exact H.
  apply stalled_lose_agent; auto.
Qed.

Lemma stalled_with_store cap tid m o :
  o <> TaskStore.OCancel tid ->
  (forall aid, o <> TaskStore.OMarkAssigned tid aid) ->
  stalled cap tid m -> stalled cap tid (with_store (TaskStore.apply o (store m)) m).
Proof. intros Hc Ha [Hw Hst]. split; [apply waiting_apply; assumption|exact Hst]. Qed.

Lemma stalled_finish cap tid tid' o r m :
  o <> TaskStore.OCancel tid ->
  (forall aid, o <> TaskStore.OMarkAssigned tid aid) ->
  r = match o with
      | TaskStore.OComplete t x => TaskStore.Complete t x (store m)
      | TaskStore.OFail t x => TaskStore.Fail t x (store m)
      | TaskStore.OCancel t => TaskStore.Cancel t (store m)
      | _ => inl InvalidTransition
      end ->
  (match o with
   | TaskStore.OComplete _ _ | TaskStore.OFail _ _ | TaskStore.OCancel _ => True
   | _ => False
   end) ->
  stalled cap tid m -> stalled cap tid (snd (finish tid' r m)).
Proof.
  intros Hc Ha Hr Ho H. unfold finish.
  destruct r as [e|st] eqn:Er; [exact H|].
  assert (Hst : st = TaskStore.apply o (store m)).
  { destruct o; try contradiction; cbn [TaskStore.apply]; rewrite <- Hr; reflexivity. }
  assert (H1 : stalled cap tid (with_store st m)).
  { rewrite Hst. apply stalled_with_store; assumption. }
  destruct (default true _); simpl; [exact H1|].
  apply stalled_assign.
  destruct (holder tid' m) as [aid|] eqn:Hh.
  - apply (stalled_release cap tid (Some aid)). exact H1.
  - exact H1.
Qed.

Lemma inr_settle st (r : error_kind + TaskStore.store) st' :
  r = inr st' -> st' = TaskStore.settle st r.
Proof. intros ->. reflexivity. Qed.

(** A request other than registering an agent of the capability, or
    cancelling the task, keeps the task stalled. *)
Lemma stalled_step cap tid r m :
  leaves_waiting cap tid r = true ->
  stalled cap tid m -> stalled cap tid (step r m).
Proof.
  intros Hr H. unfold step.
  destruct r as [conv cap' inp|cap' now|aid now|aid|now|tid'|tid' p|tid' [res|e]|tid'|tid'|tid'];
    cbn [handle].
  - cbn [TaskStore.Submit snd]. apply stalled_assign.
    apply (stalled_with_store cap tid m (TaskStore.OSubmit conv cap' inp)); congruence.
  - unfold Registry.Register.
    destruct (_ && _); [exact H|]. cbn [snd]. apply stalled_assign.
    destruct H as [Hw Hst]. split; [exact Hw|].
    unfold starved in *. simpl. apply Forall_app. split; [exact Hst|].
    constructor; [|constructor]. unfold Registry.serves. simpl.
    simpl in Hr. destruct (bool_decide (cap' = cap)); [discriminate|reflexivity].
  - unfold Registry.Heartbeat.
    destruct (registry m !! aid) as [a|] eqn:Ha; [|exact H].
    destruct (Registry.live a) eqn:Hl; [|exact H]. cbn [snd].
    destruct H as [Hw Hst]. split; [exact Hw|].
    apply starved_with_registry; [exact Hst|].
    pose proof (starved_agent _ _ _ _ Hst Ha) as Hs. rewrite Hl in Hs.
    unfold Registry.serves, Registry.live in *. simpl. rewrite andb_true_r in Hs.
    rewrite Hs. reflexivity.
  - cbn [snd]. apply stalled_assign, stalled_lose_agent; auto.
  - cbn [snd]. apply stalled_assign, stalled_sweep; exact H.
  - destruct (TaskStore.MarkRunning tid' (store m)) as [e|st] eqn:Hm; [exact H|].
    cbn [snd]. rewrite (inr_settle (store m) _ _ Hm).
    apply (stalled_with_store cap tid m (TaskStore.OMarkRunning tid')); congruence.
  - cbn [snd].
    apply (stalled_with_store cap tid m (TaskStore.OUpdateProgress tid' p)); congruence.
  - apply (stalled_finish cap tid tid' (TaskStore.OComplete tid' res)); try congruence; auto.
  - apply (stalled_finish cap tid tid' (TaskStore.OFail tid' e)); try congruence; auto.
  - apply (stalled_finish cap tid tid' (TaskStore.OCancel tid')); try congruence; auto.
    simpl in Hr. destruct (bool_decide_reflect (tid' = tid)); [discriminate|congruence].
  - destruct (TaskStore.Get tid' (store m)) as [t'|]; [|exact H].
    destruct (bool_decide _); [|exact H].
    destruct (TaskStore.assigned_agent_id t'); cbn [snd]; apply stalled_assign.
    + apply stalled_lose_agent; auto.
    + apply stalled_requeue; exact H.
  - destruct (TaskStore.Get tid' (store m)) as [t'|]; [|exact H].
    destruct (bool_decide _); [|exact H].
    assert (H1 : stalled cap tid
                   (with_store (TaskStore.settle (store m)
                                  (TaskStore.Fail tid' task_timeout (store m))) m)).
    { apply (stalled_with_store cap tid m (TaskStore.OFail tid' task_timeout)); congruence. }
    destruct (TaskStore.assigned_agent_id t'); cbn [snd]; [|exact H1].
    apply stalled_assign, stalled_lose_agent; auto.
Qed.

Lemma stalled_run cap tid rs m :
  forallb (leaves_waiting cap tid) rs = true ->
  stalled cap tid m -> stalled cap tid (run rs m).
Proof.
  revert m. induction rs as [|r rs IH]; intros m Hrs H; [exact H|].
  simpl in Hrs. apply andb_prop in Hrs. destruct Hrs as [Hr Hrs].
  simpl. apply IH; [exact Hrs|]. apply stalled_step; assumption.
Qed.

(** C7: when nobody alive serves the capability, [Submit] still answers
    with a task id, and through every later sequence of requests, sweeps
    and timers in which no agent of that capability registers and the
    task is not cancelled, the task is Pending; in particular it is never
    Failed. *)
Theorem starved_submit_stays_pending m conv cap inp rs :
  let tid := length (TaskStore.tasks (store m)) in
  starved cap m ->
  forallb (leaves_waiting cap tid) rs = true ->
  fst (handle (Submit conv cap inp) m) = TaskId tid
  /\ task_state_of tid (run rs (step (Submit conv cap inp) m)) = Some Pending.
Proof.
  intros tid Hst Hrs. split; [reflexivity|].
  assert (H : stalled cap tid (step (Submit conv cap inp) m)).
  { unfold step. cbn [handle TaskStore.Submit snd]. apply stalled_assign.
    split; [|exact Hst].
    exists (TaskStore.Task conv cap inp Pending 0 None None None 0).
    unfold TaskStore.Get. simpl. split; [|auto].
    subst tid. rewrite lookup_app_r, Nat.sub_diag by lia. reflexivity. }
  destruct (stalled_run cap tid rs _ Hrs H) as [(t & Hg & Hs & _) _].
  unfold task_state_of, TaskStore.state_of. rewrite Hg. simpl. congruence.
Qed.

(** *** The assignment scan *)

Lemma assign_one_success tid aid m t a :
  TaskStore.Get tid (store m) = Some t -> TaskStore.state t = Pending ->
  registry m !! aid = Some a ->
  assign_one tid aid m =
    Manager (cfg m)
            (<[aid := Registry.set_assigned (S (assign_seq m)) (Registry.set_state Busy a)]>
               (registry m))
            (TaskStore.put tid (TaskStore.set_agent (Some aid) (TaskStore.set_state Assigned t))
                           (store m))
            (S (assign_seq m)) (outbox m ++ [(aid, tid)]).
Proof.
  intros Hg Hs Ha. unfold assign_one, TaskStore.MarkAssigned. rewrite Hg, Hs, Ha. reflexivity.
Qed.

Lemma assign_one_cases tid aid m :
  assign_one tid aid m = m
  \/ exists t a,
       TaskStore.Get tid (store m) = Some t /\ TaskStore.state t = Pending
       /\ registry m !! aid = Some a
       /\ assign_one tid aid m =
            Manager (cfg m)
              (<[aid := Registry.set_assigned (S (assign_seq m)) (Registry.set_state Busy a)]>
                 (registry m))
              (TaskStore.put tid (TaskStore.set_agent (Some aid) (TaskStore.set_state Assigned t))
                             (store m))
              (S (assign_seq m)) (outbox m ++ [(aid, tid)]).
Proof.
  destruct (TaskStore.Get tid (store m)) as [t|] eqn:Hg.
  - destruct (decide (TaskStore.state t = Pending)) as [Hs|Hs].
    + destruct (registry m !! aid) as [a|] eqn:Ha.
      * right. exists t, a. repeat split; auto. apply assign_one_success; assumption.
      * left. unfold assign_one. rewrite Ha. destruct (TaskStore.MarkAssigned _ _ _); reflexivity.
    + left. unfold assign_one, TaskStore.MarkAssigned. rewrite Hg.
      destruct (TaskStore.state t); try reflexivity. congruence.
  - left. unfold assign_one, TaskStore.MarkAssigned. rewrite Hg. reflexivity.
Qed.


(** What holds before the scan and is kept by every assignment the scan
    makes holds after it. *)
Lemma assign_loop_inv (I : manager -> Prop) ids m :
  (forall m' tid t aid l,
      I m' -> In tid ids ->
      TaskStore.Get tid (store m') = Some t ->
      Registry.ListIdleByCapability (TaskStore.capability_required t) (registry m') = aid :: l ->
      I (assign_one tid aid m')) ->
  I m -> I (assign_loop ids m).
Proof.
  revert m. induction ids as [|tid ids IH]; intros m Hstep H; [exact H|].
  assert (Hrest : I m -> I (assign_loop ids m)).
  { intros H'. apply IH; [|exact H'].
    intros m' tid' t aid l Hi Hin. apply Hstep; [exact Hi|right; exact Hin]. }
  simpl. destruct (TaskStore.Get tid (store m)) as [t|] eqn:Hg; [|auto].
  destruct (Registry.ListIdleByCapability _ _) as [|aid l] eqn:Hl.
  - destruct (stop_at_unmatched (cfg m)); auto.
  - apply IH.
    + intros m' tid' t' aid' l' Hi Hin. apply Hstep; [exact Hi|right; exact Hin].
    + apply (Hstep m tid t aid l); auto. left. reflexivity.
Qed.










End ManagerFacts.

Lemma starved_submit_stays_pending_witness :
  fst (AgentManager.handle
         (AgentManager.Submit "c1" Model.transcription "video.mp4") Scenarios.vision_only)
    = AgentManager.TaskId 0
  /\ AgentManager.task_state_of 0
       (AgentManager.run Scenarios.later_requests
          (AgentManager.step
             (AgentManager.Submit "c1" Model.transcription "video.mp4") Scenarios.vision_only))
     = Some Model.Pending.
Proof.
  apply (starved_submit_stays_pending Scenarios.vision_only "c1" Model.transcription
           "video.mp4" Scenarios.later_requests).
  - unfold AgentManager.starved. simpl. repeat constructor.
  - reflexivity.
Defined.



(* ===================================================================== *)
(** * Progress under the Agent Manager *)
(* ===================================================================== *)

Section ManagerProgress.
Import Model AgentManager.

Lemma bounded_set_agent_state aid s m :
  TaskStore.bounded (store m) -> TaskStore.bounded (store (set_agent_state aid s m)).
Proof. unfold set_agent_state. destruct (registry m !! aid); intros H; exact H. Qed.

Lemma bounded_requeue tid m :
  TaskStore.bounded (store m) -> TaskStore.bounded (store (requeue tid m)).
Proof.
  intros H. unfold requeue.
  destruct (TaskStore.Get tid (store m)) as [t|] eqn:Hg; [|exact H].
  destruct (_ || _); [|exact H].
  destruct (max_retries (cfg m) <=? S (TaskStore.retries t)); cbn [store with_store].
  - exact (bounded_apply (TaskStore.OFail tid agent_unavailable) _ H).
  - exact (bounded_apply (TaskStore.OReturnToPending tid) _ H).
Qed.

Lemma bounded_lose_agent aid s m :
  TaskStore.bounded (store m) -> TaskStore.bounded (store (lose_agent aid s m)).
Proof.
  intros H. unfold lose_agent.
  destruct (held_task aid m); [apply bounded_requeue|]; apply bounded_set_agent_state, H.
Qed.

Lemma bounded_release aid m :
  TaskStore.bounded (store m) -> TaskStore.bounded (store (release aid m)).
Proof.
  intros H. unfold release. repeat case_match; try exact H.
  apply bounded_set_agent_state, H.
Qed.

Lemma bounded_sweep now m :
  TaskStore.bounded (store m) -> TaskStore.bounded (store (sweep now m)).
Proof.
  unfold sweep. generalize (seq 0 (length (registry m))). intros ids. revert m.
  induction ids as [|aid ids IH]; intros m H; [exact H|].
  simpl. apply IH. repeat case_match; try exact H. apply bounded_lose_agent, H.
Qed.

Lemma bounded_assign_one tid aid m :
  TaskStore.bounded (store m) -> TaskStore.bounded (store (assign_one tid aid m)).
Proof.
  intros H. destruct (assign_one_cases tid aid m) as [->|(t & a & Hg & _ & _ & ->)]; [exact H|].
  cbn [store]. apply (bounded_put _ _ t); [exact H|exact Hg|simpl; lia].
Qed.

Lemma bounded_assign m :
  TaskStore.bounded (store m) -> TaskStore.bounded (store (assign m)).
Proof.
  intros H. unfold assign.
  apply (assign_loop_inv (fun m' => TaskStore.bounded (store m'))); [|exact H].
  intros m' tid t aid l Hm' _ _ _. apply bounded_assign_one, Hm'.
Qed.

Lemma bounded_finish tid r m :
  TaskStore.bounded (store m) ->
  (forall st, r = inr st -> TaskStore.bounded st) ->
  TaskStore.bounded (store (snd (finish tid r m))).
Proof.
  intros H Hr. unfold finish. destruct r as [e|st]; [exact H|].
  specialize (Hr st eq_refl).
  destruct (default true _); cbn [snd]; [exact Hr|].
  apply bounded_assign, bounded_release. exact Hr.
Qed.

Lemma bounded_settled o st st' (r : error_kind + TaskStore.store) :
  TaskStore.bounded st -> TaskStore.settle st r = TaskStore.apply o st ->
  r = inr st' -> TaskStore.bounded st'.
Proof.
  intros H Hs ->. simpl in Hs. rewrite Hs. apply bounded_apply, H.
Qed.

Lemma bounded_step r m :
  TaskStore.bounded (store m) -> TaskStore.bounded (store (step r m)).
Proof.
  intros H. unfold step.
  destruct r as [conv cap' inp|cap' now|aid now|aid|now|tid'|tid' p|tid' [res|e]|tid'|tid'|tid'];
    cbn [handle].
  - cbn [TaskStore.Submit snd]. apply bounded_assign. cbn [store with_store].
    exact (bounded_apply (TaskStore.OSubmit conv cap' inp) _ H).
  - destruct (Registry.Register _ _ _ _) as [e|[aid reg]]; [exact H|].
    cbn [snd]. apply bounded_assign. exact H.
  - destruct (Registry.Heartbeat _ _ _); exact H.
  - cbn [snd]. apply bounded_assign, bounded_lose_agent, H.
  - cbn [snd]. apply bounded_assign, bounded_sweep, H.
  - destruct (TaskStore.MarkRunning tid' (store m)) as [e|st] eqn:Hm; [exact H|].
    cbn [snd store with_store].
    apply (bounded_settled (TaskStore.OMarkRunning tid') (store m) st _ H eq_refl Hm).
  - cbn [snd store with_store].
    exact (bounded_apply (TaskStore.OUpdateProgress tid' p) _ H).
  - apply bounded_finish; [exact H|]. intros st.
    apply (bounded_settled (TaskStore.OComplete tid' res) (store m) st _ H eq_refl).
  - apply bounded_finish; [exact H|]. intros st.
    apply (bounded_settled (TaskStore.OFail tid' e) (store m) st _ H eq_refl).
  - apply bounded_finish; [exact H|]. intros st.
    apply (bounded_settled (TaskStore.OCancel tid') (store m) st _ H eq_refl).
  - repeat case_match; try exact H; cbn [snd]; apply bounded_assign.
    + apply bounded_lose_agent, H.
    + apply bounded_requeue, H.
  - assert (H1 : TaskStore.bounded
                   (TaskStore.settle (store m) (TaskStore.Fail tid' task_timeout (store m))))
      by exact (bounded_apply (TaskStore.OFail tid' task_timeout) _ H).
    repeat case_match; try exact H; cbn [snd]; [|exact H1].
    apply bounded_assign, bounded_lose_agent. exact H1.
Qed.

Lemma bounded_manager_run rs m :
  TaskStore.bounded (store m) -> TaskStore.bounded (store (run rs m)).
Proof.
  revert m. induction rs as [|r rs IH]; intros m H; [exact H|].
  simpl. apply IH, bounded_step, H.
Qed.

(** C5: the progress values a subscriber observes for one task are
    non-decreasing, whatever operations were applied to the store and
    whatever requests, sweeps and timers the manager went through; and an
    [UpdateProgress] with a value below the current one, or for a task
    that is not Running, changes nothing and emits nothing. *)
Theorem progress_observed_nondecreasing :
  (forall ops cursor tid,
      StronglySorted le (TaskStore.observed cursor tid (TaskStore.run ops TaskStore.empty)))
  /\ (forall c rs cursor tid,
        StronglySorted le (TaskStore.observed cursor tid (store (run rs (init c)))))
  /\ (forall st tid p t,
        TaskStore.Get tid st = Some t ->
        p < TaskStore.progress t \/ TaskStore.state t <> Running ->
        TaskStore.UpdateProgress tid p st = st).
Proof.
  assert (Hsorted : forall st cursor tid,
             TaskStore.bounded st -> StronglySorted le (TaskStore.observed cursor tid st)).
  { intros st cursor tid Hb. destruct (Hb tid) as [Hs _].
    destruct (observed_suffix cursor tid st) as [before Hbefore].
    rewrite Hbefore in Hs. eapply StronglySorted_app_1_r. exact Hs. }
  split; [|split].
  - intros ops cursor tid. apply Hsorted, bounded_run, bounded_empty.
  - intros c rs cursor tid. apply Hsorted, bounded_manager_run. exact bounded_empty.
  - intros st tid p t Hg H. unfold TaskStore.UpdateProgress. rewrite Hg.
    destruct (TaskStore.state t) eqn:Hst; try reflexivity.
    destruct H as [H|H]; [|congruence].
    apply Nat.ltb_lt in H. rewrite H. reflexivity.
Qed.

End ManagerProgress.

Lemma progress_observed_nondecreasing_witness :
  StronglySorted le (TaskStore.observed 0 0 (TaskStore.run Scenarios.progress_ops TaskStore.empty))
  /\ TaskStore.UpdateProgress 0 5 (TaskStore.run Scenarios.progress_ops TaskStore.empty)
     = TaskStore.run Scenarios.progress_ops TaskStore.empty.
Proof.
  destruct progress_observed_nondecreasing as (H1 & _ & H3). split.
  - apply H1.
  - apply (H3 _ 0 5 Scenarios.running_task); [reflexivity | left; vm_compute; lia].
Defined.

(* ===================================================================== *)
(** * More about the chat window *)
(* ===================================================================== *)

Section ChatWindowMore.
Import JS Tauri ChatWindow Observe.
Local Open Scope N_scope.
Context {B : Type}.
Variable command : string -> args -> B -> B * option jsstring.

(** The component state after a chunk does not depend on the runtime. *)
Lemma on_stream_chunk_state now p (st : ChatWindow.state) (w w' : world B) :
  fst (on_stream_chunk now p (st, w)) = fst (on_stream_chunk now p (st, w')).
Proof.
  destruct p as [| |c]; simpl; try reflexivity.
  destruct (truthy _); [reflexivity|]. destruct (final_message c); reflexivity.
Qed.

Lemma merge_partial_length now pt (ms : list message) :
  (length ms <= length (merge_partial now pt ms) <= S (length ms))%nat.
Proof.
  unfold merge_partial. destruct (last ms) as [l|] eqn:Hl.
  - apply last_Some in Hl. destruct Hl as [init ->].
    destruct (__partial_agent l).
    + rewrite removelast_last, !length_app. simpl. lia.
    + rewrite !length_app. simpl. lia.
  - rewrite length_app. simpl. lia.
Qed.

Lemma merge_partial_lookup now pt (ms : list message) i m :
  ms !! i = Some m -> __partial_agent m = false ->
  merge_partial now pt ms !! i = Some m.
Proof.
  intros Hi Hm. unfold merge_partial. destruct (last ms) as [l|] eqn:Hl.
  - apply last_Some in Hl. destruct Hl as [init ->].
    destruct (__partial_agent l) eqn:Hf.
    + rewrite removelast_last.
      destruct (decide (i < length init)%nat) as [Hlt|Hge].
      * rewrite lookup_app_l in Hi by exact Hlt. rewrite lookup_app_l by exact Hlt. exact Hi.
      * rewrite lookup_app_r in Hi by lia.
        destruct (i - length init)%nat; simpl in Hi; [|discriminate].
        inversion Hi. subst m. congruence.
    + apply lookup_app_l_Some. exact Hi.
  - apply lookup_app_l_Some. exact Hi.
Qed.

Lemma on_stream_chunk_lookup now p (s : ChatWindow.state * world B) i m :
  messages (fst s) !! i = Some m -> __partial_agent m = false ->
  messages (fst (on_stream_chunk now p s)) !! i = Some m.
Proof.
  intros Hi Hm. destruct p as [| |c]; [exact Hi|exact Hi|].
  rewrite on_stream_chunk_messages.
  destruct (truthy _); [apply merge_partial_lookup; assumption|].
  destruct (final_message c); [apply lookup_app_l_Some|]; exact Hi.
Qed.

Lemma on_stream_chunk_length now p (s : ChatWindow.state * world B) :
  (length (messages (fst s)) <= length (messages (fst (on_stream_chunk now p s)))
   <= S (length (messages (fst s))))%nat.
Proof.
  destruct p as [| |c]; [simpl; lia|simpl; lia|].
  rewrite on_stream_chunk_messages.
  destruct (truthy _); [apply merge_partial_length|].
  destruct (final_message c); [rewrite length_app; simpl|]; lia.
Qed.

(** X1: a stream never shortens the message list and adds at most one
    message per chunk; a message that is not flagged as partial keeps its
    place and its content through every later chunk. *)
Theorem settled_messages_stay chunks (s : ChatWindow.state * world B) :
  (length (messages (fst s)) <= length (messages (fst (process chunks s)))
   <= length (messages (fst s)) + length chunks)%nat
  /\ forall i m,
       messages (fst s) !! i = Some m -> __partial_agent m = false ->
       messages (fst (process chunks s)) !! i = Some m.
Proof.
  unfold process. revert s. induction chunks as [|c chunks IH]; intros s.
  - simpl. split; [lia|auto].
  - simpl. destruct (IH (on_stream_chunk (fst c) (snd c) s)) as [Hlen Hkeep].
    pose proof (on_stream_chunk_length (fst c) (snd c) s) as Hstep.
    split; [lia|].
    intros i m Hi Hm. apply Hkeep; [|exact Hm].
    apply on_stream_chunk_lookup; assumption.
Qed.

(** Two [partial_text] chunks in a row act like one that carries both
    texts and whose updater reads the clock value the first one read. *)
Lemma merge_partial_twice n1 n2 a b (ms : list message) :
  merge_partial n2 b (merge_partial n1 a ms) = merge_partial n1 (a ++ b) ms.
Proof.
  unfold merge_partial at 2 3. destruct (last ms) as [l|] eqn:Hl.
  - destruct (__partial_agent l) eqn:Hf.
    + unfold merge_partial. rewrite last_snoc. cbn [__partial_agent id sender text or_empty].
      rewrite removelast_last. unfold concat. rewrite app_assoc. reflexivity.
    + unfold merge_partial. rewrite last_snoc. cbn [__partial_agent id sender text or_empty].
      rewrite removelast_last. reflexivity.
  - unfold merge_partial. rewrite last_snoc. cbn [__partial_agent id sender text or_empty].
    rewrite removelast_last. reflexivity.
Qed.

(** X2: a run of non-empty [partial_text] chunks leaves the list as a
    single chunk would that carries the concatenation of their texts and
    whose updater reads the clock value that the updater of the first
    chunk of the run read, whenever React ran it. *)
Theorem partial_run_concatenates now pt rest (s : ChatWindow.state * world B) :
  pt <> [] ->
  Forall (fun c : N * jsstring => snd c <> []) rest ->
  messages (fst (process ((now, partial_chunk pt)
                            :: List.map (fun c => (fst c, partial_chunk (snd c))) rest) s))
  = merge_partial now (pt ++ List.concat (List.map snd rest)) (messages (fst s)).
Proof.
  intros Hpt Hrest. revert pt Hpt s.
  induction Hrest as [|[n2 b] rest Hb Hrest IH]; intros pt Hpt s.
  - simpl. rewrite app_nil_r.
    unfold process. simpl. destruct pt; [congruence|reflexivity].
  - simpl in Hb. cbn [List.map List.concat fst snd].
    assert (Hstep : forall now' t (s' : ChatWindow.state * world B), t <> [] ->
               messages (fst (on_stream_chunk now' (partial_chunk t) s'))
               = merge_partial now' t (messages (fst s'))).
    { intros now' t s' Ht. destruct t; [congruence|reflexivity]. }
    specialize (IH (pt ++ b)).
    assert (Hne : pt ++ b <> []) by (destruct pt; [congruence|discriminate]).
    rewrite app_assoc, <- (IH Hne s).
    unfold process. cbn [fold_left fst snd].
    remember (List.map (fun c : N * jsstring => (fst c, partial_chunk (snd c))) rest) as tail.
    clear IH Heqtail Hrest.
    assert (Hsame : messages (fst (on_stream_chunk n2 (partial_chunk b)
                                     (on_stream_chunk now (partial_chunk pt) s)))
                    = messages (fst (on_stream_chunk now (partial_chunk (pt ++ b)) s))).
    { rewrite !Hstep by assumption. apply merge_partial_twice. }
    revert Hsame.
    generalize (on_stream_chunk n2 (partial_chunk b) (on_stream_chunk now (partial_chunk pt) s)).
    generalize (on_stream_chunk now (partial_chunk (pt ++ b)) s).
    induction tail as [|c tail IHt]; intros s1 s2 Hsame; [exact Hsame|].
    simpl. apply IHt.
    destruct (snd c) as [| |ch]; simpl; try exact Hsame.
    destruct (truthy _); simpl; [rewrite Hsame; reflexivity|].
    destruct (final_message ch); simpl; [rewrite Hsame; reflexivity|exact Hsame].
Qed.

Lemma merge_partial_partial now pt (ms : list message) i m :
  ms !! i = Some m -> __partial_agent m = true ->
  exists m' more,
    merge_partial now pt ms !! i = Some m' /\ __partial_agent m' = true
    /\ id m' = id m /\ sender m' = sender m
    /\ or_empty (text m') = or_empty (text m) ++ more.
Proof.
  intros Hi Hm.
  assert (Hsame : forall l' : list message, l' !! i = Some m ->
             exists m' more, l' !! i = Some m' /\ __partial_agent m' = true
               /\ id m' = id m /\ sender m' = sender m
               /\ or_empty (text m') = or_empty (text m) ++ more).
  { intros l' Hl'. exists m, []. rewrite app_nil_r. auto. }
  unfold merge_partial. destruct (last ms) as [l|] eqn:Hl.
  - apply last_Some in Hl. destruct Hl as [init ->].
    destruct (__partial_agent l) eqn:Hf.
    + rewrite removelast_last.
      destruct (decide (i < length init)%nat) as [Hlt|Hge].
      * apply Hsame. rewrite lookup_app_l in Hi by exact Hlt.
        rewrite lookup_app_l by exact Hlt. exact Hi.
      * rewrite lookup_app_r in Hi by lia. rewrite lookup_app_r by lia.
        destruct (i - length init)%nat; simpl in Hi; [|discriminate].
        inversion Hi. subst m. eexists. exists pt. simpl. auto.
    + apply Hsame. apply lookup_app_l_Some. exact Hi.
  - apply Hsame. apply lookup_app_l_Some. exact Hi.
Qed.

(** X14: a message flagged as partial is never removed and never loses
    the flag: after every later chunk the same place holds a partial
    message with the same id and sender, whose text is the old text with
    more text behind it. *)
Theorem partial_messages_stay_partial chunks (s : ChatWindow.state * world B) i m :
  messages (fst s) !! i = Some m -> __partial_agent m = true ->
  exists m' more,
    messages (fst (process chunks s)) !! i = Some m'
    /\ __partial_agent m' = true
    /\ id m' = id m /\ sender m' = sender m
    /\ or_empty (text m') = or_empty (text m) ++ more.
Proof.
  unfold process. revert s m. induction chunks as [|c chunks IH]; intros s m Hi Hm.
  - exists m, []. rewrite app_nil_r. auto.
  - simpl.
    assert (Hstep : exists m1 more1,
               messages (fst (on_stream_chunk (fst c) (snd c) s)) !! i = Some m1
               /\ __partial_agent m1 = true /\ id m1 = id m /\ sender m1 = sender m
               /\ or_empty (text m1) = or_empty (text m) ++ more1).
    { destruct (snd c) as [| |ch].
      - exists m, []. rewrite app_nil_r. auto.
      - exists m, []. rewrite app_nil_r. auto.
      - rewrite on_stream_chunk_messages. destruct (truthy _).
        + apply merge_partial_partial; assumption.
        + exists m, []. rewrite app_nil_r.
          destruct (final_message ch); [|auto].
          split; [apply lookup_app_l_Some; exact Hi|auto]. }
    destruct Hstep as (m1 & more1 & H1 & Hf1 & Hid1 & Hs1 & Ht1).
    destruct (IH _ m1 H1 Hf1) as (m' & more & H' & Hf' & Hid' & Hs' & Ht').
    exists m', (more1 ++ more). split; [exact H'|]. split; [exact Hf'|].
    split; [congruence|]. split; [congruence|].
    rewrite Ht', Ht1, app_assoc. reflexivity.
Qed.

End ChatWindowMore.

(* ===================================================================== *)
(** * Listeners and commands *)
(* ===================================================================== *)

Section ListenersAndCommands.
Import JS Tauri ChatWindow Observe.
Local Open Scope N_scope.
Context {B : Type}.
Variable command : string -> args -> B -> B * option jsstring.

Lemma deliver_to_state now p l (acc : ChatWindow.state * world B) :
  fst (deliver_to now p l acc)
  = if hears_chat l then fst (on_stream_chunk now p acc) else fst acc.
Proof.
  unfold deliver_to, hears_chat.
  destruct (String.eqb (fst (snd l)) "stream_chunk"); [|reflexivity].
  destruct (snd (snd l)) as [|onChunk]; simpl; [reflexivity|].
  destruct (truthy_val onChunk); [|reflexivity].
  destruct p, onChunk as [| |[]]; reflexivity.
Qed.

Lemma chat_listeners_cons l ls :
  chat_listeners (l :: ls)
  = if hears_chat l then S (chat_listeners ls) else chat_listeners ls.
Proof. unfold chat_listeners. simpl. destruct (hears_chat l); reflexivity. Qed.

Lemma deliver_fold now p ls (acc : ChatWindow.state * world B) (w0 : world B) :
  fst (fold_left (fun a l => deliver_to now p l a) ls acc)
  = Nat.iter (chat_listeners ls)
             (fun st => fst (on_stream_chunk now p (st, w0))) (fst acc).
Proof.
  revert acc. induction ls as [|l ls IH]; intros acc; [reflexivity|].
  cbn [fold_left]. rewrite IH, deliver_to_state, chat_listeners_cons.
  destruct (hears_chat l); [|reflexivity].
  rewrite Nat.iter_succ_r. f_equal.
  destruct acc as [st w]. apply on_stream_chunk_state.
Qed.

(** X3: one [stream_chunk] event is applied to the chat state once for
    every chat-window handler that is registered, and not at all by the
    listeners that [sendMessageAndStream] installs, however many sends
    are in flight. *)
Theorem deliver_once_per_chat_window now p (s : ChatWindow.state * world B) :
  fst (deliver now p s)
  = Nat.iter (chat_listeners (listeners (snd s)))
             (fun st => fst (on_stream_chunk now p (st, snd s))) (fst s).
Proof. unfold deliver. apply deliver_fold. Qed.

Lemma filter_other_ids n (ls : list (nat * (string * listener))) :
  Forall (fun e => (fst e < n)%nat) ls ->
  List.filter (fun e => negb (Nat.eqb (fst e) n)) ls = ls.
Proof.
  induction 1 as [|e ls He Hls IH]; [reflexivity|].
  simpl. destruct (Nat.eqb_spec (fst e) n); [lia|]. simpl. rewrite IH. reflexivity.
Qed.


Lemma well_numbered_weaken n (ls : list (nat * (string * listener))) m :
  (n <= m)%nat -> Forall (fun e => (fst e < n)%nat) ls -> Forall (fun e => (fst e < m)%nat) ls.
Proof.
  intros Hle H. eapply Forall_impl; [exact H|]. intros e He. simpl in He. lia.
Qed.

(** X4: mounting the chat window and unmounting it again leaves the
    listener table as it was, whatever else is registered; only the
    counter of listener numbers has moved on. *)
Theorem mount_cleanup_restores (s : ChatWindow.state * world B) :
  well_numbered (snd s) ->
  listeners (snd (cleanup (fst (mount s)) (snd (mount s)))) = listeners (snd s)
  /\ fst (cleanup (fst (mount s)) (snd (mount s))) = fst s
  /\ backend (snd (cleanup (fst (mount s)) (snd (mount s)))) = backend (snd s)
  /\ well_numbered (snd (cleanup (fst (mount s)) (snd (mount s)))).
Proof.
  intros Hw. destruct s as [st [ls n tr b]].
  unfold well_numbered in *. simpl in *.
  assert (Hl : List.filter (fun e : nat * (string * listener) => negb (Nat.eqb (fst e) n))
                 (ls ++ [(n, ("stream_chunk"%string, ChatWindowListener))]) = ls).
  { rewrite List.filter_app, filter_other_ids by exact Hw.
    simpl. rewrite Nat.eqb_refl. simpl. apply app_nil_r. }
  rewrite Hl. repeat split.
  apply (well_numbered_weaken n); [lia|exact Hw].
Qed.


Lemma arguments_of_app cmd (a b : list event) :
  arguments_of cmd (a ++ b) = arguments_of cmd a ++ arguments_of cmd b.
Proof.
  induction a as [|e a IH]; [reflexivity|].
  destruct e; simpl; rewrite ?IH; try reflexivity.
  destruct (String.eqb cmd0 cmd); simpl; rewrite ?IH; reflexivity.
Qed.


(** X6: after a message was sent, the first [partial_text] chunk of the
    reply starts a message of its own behind the user's message; it is
    never merged into a partial message left over from before. *)
Theorem reply_starts_new_message props now now' pt (s : ChatWindow.state * world B) :
  blank (input (fst s)) = false -> pt <> [] ->
  messages (fst (on_stream_chunk now' (partial_chunk pt) (onSend command props now s)))
  = messages (fst s)
      ++ [Message (Some (lit "u-" ++ number_to_string now)) (lit "user")
                  (Some (input (fst s))) false;
          Message (Some (lit "partial-" ++ number_to_string now')) (lit "agent")
                  (Some pt) true].
Proof.
  intros Hb Hpt. unfold partial_chunk. rewrite on_stream_chunk_messages.
  cbn [partial_text or_empty].
  destruct pt as [|ch pt]; [congruence|]. cbn [truthy].
  unfold onSend. rewrite not_trim_blank, Hb.
  cbn [fst snd setInput setMessages messages append_message].
  unfold merge_partial, append_message. rewrite last_snoc. cbn [__partial_agent].
  rewrite <- app_assoc. reflexivity.
Qed.

(** X7: the call in [onSend] passes the backend address, the
    conversation id, ["user"] and the typed text, in this order.  The
    client as it stands takes the conversation id first, so the command
    gets the address as conversation id, the conversation id as sender
    and ["user"] as text; the revision that takes the address first hands
    the same arguments on under their own names. *)
Theorem onSend_argument_binding props now (s : ChatWindow.state * world B) :
  blank (input (fst s)) = false ->
  arguments_of "send_message_and_stream" (trace (snd (onSend command props now s)))
  = arguments_of "send_message_and_stream" (trace (snd s))
      ++ [[("conversation_id", VString (backendAddr props));
           ("sender", VString (convId props));
           ("text", VString (lit "user"))]%string]
  /\ forall w : world B,
       arguments_of "send_message_and_stream"
         (trace (snd (GrpcClientAddr.call_sendMessageAndStream command
                        [VString (backendAddr props); VString (convId props);
                         VString (lit "user"); VString (input (fst s))] w)))
       = arguments_of "send_message_and_stream" (trace w)
           ++ [[("backend_addr", VString (backendAddr props));
                ("conversation_id", VString (convId props));
                ("sender", VString (lit "user"));
                ("text", VString (input (fst s)))]%string].
Proof.
  intros Hb. split.
  - unfold onSend. rewrite not_trim_blank, Hb.
    unfold call_sendMessageAndStream, GrpcClient.sendMessageAndStream, invoke, listen, unlisten.
    cbn [fst snd setInput setMessages log trace backend listeners next_listener nth].
    destruct (command _ _ _) as [b [resp|]]; cbn [fst snd trace];
      rewrite <- !app_assoc, arguments_of_app; reflexivity.
  - intros w.
    unfold GrpcClientAddr.call_sendMessageAndStream, GrpcClientAddr.sendMessageAndStream,
      invoke, listen, unlisten.
    cbn [fst snd trace backend listeners next_listener nth].
    destruct (command _ _ _) as [b [resp|]]; cbn [fst snd trace];
      rewrite <- !app_assoc, arguments_of_app; reflexivity.
Qed.

End ListenersAndCommands.

(* ===================================================================== *)
(** * More about the upload panel *)
(* ===================================================================== *)

Section UploadPanelMore.
Import JS Tauri Observe.
Local Open Scope N_scope.
Context {B : Type}.
Variable command : string -> args -> B -> B * option jsstring.
Variable max_args : N.


(** X8: for every file with more bytes than the engine takes arguments,
    [onFileChange] is rejected with [RangeError] before any command is
    invoked, and the panel is left uploading at 10%. *)
Theorem onFileChange_beyond_limit props f (s : UploadPanel.state * world B) :
  max_args < N.of_nat (length (UploadPanel.content f)) ->
  UploadPanel.onFileChange command max_args props (Some f) s
  = (Some RangeError,
     (UploadPanel.State 10 true,
      World (listeners (snd s)) (next_listener (snd s))
            (trace (snd s) ++ [ESetUploading true; ESetProgress 10]) (backend (snd s)))).
Proof.
  intros H. unfold UploadPanel.onFileChange.
  rewrite to_base64_beyond by exact H.
  unfold UploadPanel.setProgress, UploadPanel.setUploading, log. simpl.
  rewrite <- app_assoc. reflexivity.
Qed.





End UploadPanelMore.

(* ===================================================================== *)
(** * The base64 text of a file *)
(* ===================================================================== *)

Section Base64Facts.
Import JS Base64.
Local Open Scope N_scope.

(** Below a bound, a property checked for every number holds. *)
Lemma below_forall (n : nat) (P : N -> bool) :
  forallb P (List.map N.of_nat (seq 0 n)) = true ->
  forall x, x < N.of_nat n -> P x = true.
Proof.
  intros H x Hx. rewrite forallb_forall in H. apply H.
  apply in_map_iff. exists (N.to_nat x). split; [apply N2Nat.id|].
  apply in_seq. lia.
Qed.

Lemma sextet_b64_char i : i < 64 -> sextet (b64_char i) = i /\ b64_char i <> pad.
Proof.
  intros Hi.
  pose proof (below_forall 64
                (fun i => (sextet (b64_char i) =? i) && negb (b64_char i =? pad))) as H.
  specialize (H eq_refl i Hi). apply andb_prop in H. destruct H as [H1 H2].
  apply N.eqb_eq in H1. apply negb_true_iff, N.eqb_neq in H2. auto.
Qed.

Lemma b64_char_text i : i < 64 -> b64_text_char (b64_char i) = true.
Proof. exact (below_forall 64 (fun i => b64_text_char (b64_char i)) eq_refl i). Qed.

(** The two sextets that share bits of two octets. *)
Lemma lor_high_low_4 x y : x < 4 -> y < 16 -> N.lor (N.shiftl x 4) y = x * 16 + y.
Proof.
  intros Hx Hy.
  pose proof (below_forall 4
                (fun x => forallb (fun y => N.lor (N.shiftl x 4) y =? x * 16 + y)
                                  (List.map N.of_nat (seq 0 16)))) as H.
  specialize (H eq_refl x Hx).
  apply N.eqb_eq. exact (below_forall 16 _ H y Hy).
Qed.

Lemma lor_high_low_2 x y : x < 16 -> y < 4 -> N.lor (N.shiftl x 2) y = x * 4 + y.
Proof.
  intros Hx Hy.
  pose proof (below_forall 16
                (fun x => forallb (fun y => N.lor (N.shiftl x 2) y =? x * 4 + y)
                                  (List.map N.of_nat (seq 0 4)))) as H.
  specialize (H eq_refl x Hx).
  apply N.eqb_eq. exact (below_forall 4 _ H y Hy).
Qed.

Lemma land_3 a : N.land a 3 = a mod 4.
Proof. change 3 with (N.ones 2). rewrite N.land_ones. reflexivity. Qed.

Lemma land_15 a : N.land a 15 = a mod 16.
Proof. change 15 with (N.ones 4). rewrite N.land_ones. reflexivity. Qed.

Lemma land_63 a : N.land a 63 = a mod 64.
Proof. change 63 with (N.ones 6). rewrite N.land_ones. reflexivity. Qed.

Lemma shiftr_2 a : N.shiftr a 2 = a / 4.
Proof. rewrite N.shiftr_div_pow2. reflexivity. Qed.

Lemma shiftr_4 a : N.shiftr a 4 = a / 16.
Proof. rewrite N.shiftr_div_pow2. reflexivity. Qed.

Lemma shiftr_6 a : N.shiftr a 6 = a / 64.
Proof. rewrite N.shiftr_div_pow2. reflexivity. Qed.

Lemma shiftl_4 a : N.shiftl a 4 = a * 16.
Proof. rewrite N.shiftl_mul_pow2. reflexivity. Qed.

Lemma shiftl_2 a : N.shiftl a 2 = a * 4.
Proof. rewrite N.shiftl_mul_pow2. reflexivity. Qed.

(** The four sextets of three octets, in arithmetic. *)
Lemma sextets a b c :
  a < 256 -> b < 256 -> c < 256 ->
  N.shiftr a 2 = a / 4
  /\ N.lor (N.shiftl (N.land a 3) 4) (N.shiftr b 4) = (a mod 4) * 16 + b / 16
  /\ N.lor (N.shiftl (N.land b 15) 2) (N.shiftr c 6) = (b mod 16) * 4 + c / 64
  /\ N.land c 63 = c mod 64
  /\ N.shiftl (N.land a 3) 4 = (a mod 4) * 16
  /\ N.shiftl (N.land b 15) 2 = (b mod 16) * 4.
Proof.
  intros Ha Hb Hc. split; [apply shiftr_2|]. split; [|split; [|split; [|split]]].
  - rewrite land_3, shiftr_4. apply lor_high_low_4; [apply N.mod_lt; lia|].
    apply N.Div0.div_lt_upper_bound. lia.
  - rewrite land_15, shiftr_6. apply lor_high_low_2; [apply N.mod_lt; lia|].
    apply N.Div0.div_lt_upper_bound. lia.
  - apply land_63.
  - rewrite land_3. apply shiftl_4.
  - rewrite land_15. apply shiftl_2.
Qed.

Ltac sextet_facts a :=
  pose proof (N.div_mod a 4 ltac:(lia));
  pose proof (N.div_mod a 16 ltac:(lia));
  pose proof (N.div_mod a 64 ltac:(lia));
  pose proof (N.mod_lt a 4 ltac:(lia));
  pose proof (N.mod_lt a 16 ltac:(lia));
  pose proof (N.mod_lt a 64 ltac:(lia)).

Lemma decode_base64 (l : list N) :
  Forall (fun b => b < 256) l -> decode (base64 l) = l.
Proof.
  assert (H : forall n (l : list N), (length l <= n)%nat ->
                Forall (fun b => b < 256) l -> decode (base64 l) = l).
  { clear l. induction n as [|n IH]; intros l Hn Hl.
    - destruct l; [reflexivity|simpl in Hn; lia].
    - destruct l as [|a [|b [|c rest]]]; [reflexivity| | |].
      + inversion Hl as [|? ? Ha _]; subst.
        destruct (sextets a 0 0 Ha) as (E1 & _ & _ & _ & E5 & _); [lia|lia|].
        cbn [base64 decode]. rewrite E1, E5. rewrite N.eqb_refl.
        sextet_facts a.
        destruct (sextet_b64_char (a / 4)) as [-> _];
          [apply N.Div0.div_lt_upper_bound; lia|].
        destruct (sextet_b64_char (a mod 4 * 16)) as [-> _]; [lia|].
        f_equal. rewrite N.div_mul by lia. lia.
      + inversion Hl as [|? ? Ha Hl']; subst. inversion Hl' as [|? ? Hb _]; subst.
        destruct (sextets a b 0 Ha Hb) as (E1 & E2 & _ & _ & _ & _); [lia|].
        destruct (sextets b b 0 Hb Hb) as (_ & _ & _ & _ & _ & E6); [lia|].
        cbn [base64 decode]. rewrite E1, E2, E6.
        sextet_facts a. sextet_facts b.
        assert (Hb16 : b / 16 < 16) by (apply N.Div0.div_lt_upper_bound; lia).
        destruct (sextet_b64_char (a / 4)) as [-> _];
          [apply N.Div0.div_lt_upper_bound; lia|].
        destruct (sextet_b64_char (a mod 4 * 16 + b / 16)) as [-> _]; [lia|].
        destruct (sextet_b64_char (b mod 16 * 4)) as [-> Hp]; [lia|].
        apply N.eqb_neq in Hp. rewrite Hp, N.eqb_refl.
        assert (Hd1 : (a mod 4 * 16 + b / 16) / 16 = a mod 4)
          by (rewrite N.div_add_l by lia; rewrite (N.div_small (b / 16)) by lia; lia).
        assert (Hm1 : (a mod 4 * 16 + b / 16) mod 16 = b / 16)
          by (rewrite N.add_comm, N.Div0.mod_add; apply N.mod_small; lia).
        rewrite Hd1, Hm1, N.div_mul by lia.
        f_equal; [lia|]. f_equal. lia.
      + inversion Hl as [|? ? Ha Hl']; subst. inversion Hl' as [|? ? Hb Hl'']; subst.
        inversion Hl'' as [|? ? Hc Hrest]; subst.
        destruct (sextets a b c Ha Hb Hc) as (E1 & E2 & E3 & E4 & _ & _).
        cbn [base64 decode]. rewrite E1, E2, E3, E4.
        sextet_facts a. sextet_facts b. sextet_facts c.
        assert (Hb16 : b / 16 < 16) by (apply N.Div0.div_lt_upper_bound; lia).
        assert (Hc64 : c / 64 < 4) by (apply N.Div0.div_lt_upper_bound; lia).
        destruct (sextet_b64_char (a / 4)) as [-> _];
          [apply N.Div0.div_lt_upper_bound; lia|].
        destruct (sextet_b64_char (a mod 4 * 16 + b / 16)) as [-> _]; [lia|].
        destruct (sextet_b64_char (b mod 16 * 4 + c / 64)) as [-> Hp3]; [lia|].
        destruct (sextet_b64_char (c mod 64)) as [-> Hp4]; [lia|].
        apply N.eqb_neq in Hp3. apply N.eqb_neq in Hp4. rewrite Hp3, Hp4.
        assert (Hd1 : (a mod 4 * 16 + b / 16) / 16 = a mod 4)
          by (rewrite N.div_add_l by lia; rewrite (N.div_small (b / 16)) by lia; lia).
        assert (Hm1 : (a mod 4 * 16 + b / 16) mod 16 = b / 16)
          by (rewrite N.add_comm, N.Div0.mod_add; apply N.mod_small; lia).
        assert (Hd2 : (b mod 16 * 4 + c / 64) / 4 = b mod 16)
          by (rewrite N.div_add_l by lia; rewrite (N.div_small (c / 64)) by lia; lia).
        assert (Hm2 : (b mod 16 * 4 + c / 64) mod 4 = c / 64)
          by (rewrite N.add_comm, N.Div0.mod_add; apply N.mod_small; lia).
        rewrite Hd1, Hm1, Hd2, Hm2.
        rewrite IH; [|simpl in Hn; lia|exact Hrest].
        f_equal; [lia|]. f_equal; [lia|]. f_equal. lia. }
  apply (H (length l)). lia.
Qed.

Lemma base64_length (l : list N) :
  length (base64 l) = (4 * ((length l + 2) / 3))%nat.
Proof.
  assert (H : forall n (l : list N), (length l <= n)%nat ->
                length (base64 l) = (4 * ((length l + 2) / 3))%nat).
  { clear l. induction n as [|n IH]; intros l Hn.
    - destruct l; [reflexivity|simpl in Hn; lia].
    - destruct l as [|a [|b [|c rest]]]; try reflexivity.
      cbn [base64 length]. rewrite IH by (simpl in Hn; lia).
      replace (S (S (S (length rest))) + 2)%nat with ((length rest + 2) + 1 * 3)%nat by lia.
      rewrite Nat.div_add by lia. lia. }
  apply (H (length l)). lia.
Qed.

Lemma base64_text (l : list N) :
  Forall (fun b => b < 256) l -> forallb b64_text_char (base64 l) = true.
Proof.
  assert (H : forall n (l : list N), (length l <= n)%nat ->
                Forall (fun b => b < 256) l -> forallb b64_text_char (base64 l) = true).
  { clear l. induction n as [|n IH]; intros l Hn Hl.
    - destruct l; [reflexivity|simpl in Hn; lia].
    - destruct l as [|a [|b [|c rest]]]; [reflexivity| | |].
      + inversion Hl as [|? ? Ha _]; subst.
        destruct (sextets a 0 0 Ha) as (E1 & _ & _ & _ & E5 & _); [lia|lia|].
        cbn [base64 forallb]. rewrite E1, E5. sextet_facts a.
        rewrite !b64_char_text by (try apply N.Div0.div_lt_upper_bound; lia).
        reflexivity.
      + inversion Hl as [|? ? Ha Hl']; subst. inversion Hl' as [|? ? Hb _]; subst.
        destruct (sextets a b 0 Ha Hb) as (E1 & E2 & _ & _ & _ & _); [lia|].
        destruct (sextets b b 0 Hb Hb) as (_ & _ & _ & _ & _ & E6); [lia|].
        cbn [base64 forallb]. rewrite E1, E2, E6. sextet_facts a. sextet_facts b.
        assert (Hb16 : b / 16 < 16) by (apply N.Div0.div_lt_upper_bound; lia).
        rewrite !b64_char_text by (try apply N.Div0.div_lt_upper_bound; lia).
        reflexivity.
      + inversion Hl as [|? ? Ha Hl']; subst. inversion Hl' as [|? ? Hb Hl'']; subst.
        inversion Hl'' as [|? ? Hc Hrest]; subst.
        destruct (sextets a b c Ha Hb Hc) as (E1 & E2 & E3 & E4 & _ & _).
        cbn [base64 forallb]. rewrite E1, E2, E3, E4.
        sextet_facts a. sextet_facts b. sextet_facts c.
        assert (Hb16 : b / 16 < 16) by (apply N.Div0.div_lt_upper_bound; lia).
        assert (Hc64 : c / 64 < 4) by (apply N.Div0.div_lt_upper_bound; lia).
        rewrite !b64_char_text by (try apply N.Div0.div_lt_upper_bound; lia).
        rewrite IH; [reflexivity|simpl in Hn; lia|exact Hrest]. }
  apply (H (length l)). lia.
Qed.

Lemma Uint8Array_below (data : list Byte.byte) :
  Forall (fun b => b < 256) (UploadPanel.Uint8Array data).
Proof.
  unfold UploadPanel.Uint8Array. induction data as [|b data IH]; constructor; [|exact IH].
  destruct b; reflexivity.
Qed.

Lemma Uint8Array_inj (d1 d2 : list Byte.byte) :
  UploadPanel.Uint8Array d1 = UploadPanel.Uint8Array d2 -> d1 = d2.
Proof.
  unfold UploadPanel.Uint8Array. revert d2.
  induction d1 as [|a d1 IH]; intros [|b d2] H; try discriminate; [reflexivity|].
  simpl in H. inversion H as [[Hab Hd]]. f_equal; [|apply IH; exact Hd].
  assert (E : Byte.of_N (Byte.to_N a) = Byte.of_N (Byte.to_N b)) by (rewrite Hab; reflexivity).
  rewrite !Byte.of_to_N in E. congruence.
Qed.

(** X11: the text [onFileChange] hands to [saveUploadedFile] loses
    nothing: decoding it gives back the file's bytes, so two different
    files never get the same text. *)
Theorem to_base64_lossless (max_args : N) (data : list Byte.byte) (t : jsstring) :
  UploadPanel.to_base64 max_args data = inr t ->
  decode t = UploadPanel.Uint8Array data
  /\ forall data', UploadPanel.to_base64 max_args data' = inr t -> data' = data.
Proof.
  assert (Hdec : forall d t', UploadPanel.to_base64 max_args d = inr t' ->
                              decode t' = UploadPanel.Uint8Array d).
  { intros d t' H. unfold UploadPanel.to_base64, fromCharCode_spread in H.
    destruct (_ <=? _); [|discriminate].
    destruct (Uint8Array_octets d) as [Hm Hb]. rewrite Hm in H.
    unfold btoa in H. rewrite Hb in H. inversion H.
    apply decode_base64, Uint8Array_below. }
  intros H. split; [apply Hdec; exact H|].
  intros data' H'. apply Uint8Array_inj.
  rewrite <- (Hdec _ _ H), <- (Hdec _ _ H'). reflexivity.
Qed.

(** X12: that text is four characters for every three bytes of the
    file, rounded up, and is made of the 64 characters of the base64
    alphabet and the padding character only. *)
Theorem to_base64_shape (max_args : N) (data : list Byte.byte) (t : jsstring) :
  UploadPanel.to_base64 max_args data = inr t ->
  length t = (4 * ((length data + 2) / 3))%nat
  /\ forallb b64_text_char t = true.
Proof.
  intros H. unfold UploadPanel.to_base64, fromCharCode_spread in H.
  destruct (_ <=? _); [|discriminate].
  destruct (Uint8Array_octets data) as [Hm Hb]. rewrite Hm in H.
  unfold btoa in H. rewrite Hb in H. inversion H. split.
  - rewrite base64_length. unfold UploadPanel.Uint8Array. rewrite length_map. reflexivity.
  - apply base64_text, Uint8Array_below.
Qed.

End Base64Facts.

(* ===================================================================== *)
(** * The artifact list *)
(* ===================================================================== *)

Section ArtifactViewerFacts.
Import JS ArtifactViewer.
Local Open Scope N_scope.

(** The last piece of a split, and what stands before it. *)
Lemma split_last (sep : N) (f : jsstring) :
  exists pieces seg,
    split sep f = pieces ++ [seg]
    /\ ~ In sep seg
    /\ (pieces = [] -> f = seg)
    /\ (pieces <> [] -> exists p, f = p ++ sep :: seg).
Proof.
  induction f as [|c rest (pieces & seg & Hs & Hn & H0 & H1)].
  - exists [], []. simpl. repeat split; auto. congruence.
  - simpl. destruct (N.eqb_spec c sep) as [->|Hc].
    + exists ([] :: pieces), seg. rewrite Hs. split; [reflexivity|]. split; [exact Hn|].
      split; [discriminate|]. intros _.
      destruct pieces as [|p0 pieces].
      * exists []. rewrite (H0 eq_refl). reflexivity.
      * destruct H1 as [p Hp]; [discriminate|]. exists (sep :: p). rewrite Hp. reflexivity.
    + rewrite Hs. destruct pieces as [|p0 pieces]; simpl.
      * exists [], (c :: seg). split; [reflexivity|]. split.
        -- intros [E|E]; [congruence|exact (Hn E)].
        -- split; [intros _; rewrite (H0 eq_refl); reflexivity|congruence].
      * exists ((c :: p0) :: pieces), seg. split; [reflexivity|]. split; [exact Hn|].
        split; [discriminate|]. intros _.
        destruct H1 as [p Hp]; [discriminate|]. exists (c :: p). rewrite Hp. reflexivity.
Qed.

Lemma split_whole (sep : N) (f : jsstring) : ~ In sep f -> split sep f = [f].
Proof.
  induction f as [|c rest IH]; [reflexivity|].
  intros Hn. simpl. destruct (N.eqb_spec c sep) as [->|Hc].
  - exfalso. apply Hn. left. reflexivity.
  - rewrite IH; [reflexivity|]. intros H. apply Hn. right. exact H.
Qed.

(** X13: the text shown for an artifact is always defined, contains no
    slash, and is what follows the last slash of the path; a path
    without a slash, such as one written with backslashes, is shown
    whole. *)
Theorem label_is_last_segment (f : jsstring) :
  exists seg,
    label f = Some seg
    /\ ~ In slash seg
    /\ (f = seg \/ exists p, f = p ++ slash :: seg)
    /\ (~ In slash f -> seg = f).
Proof.
  destruct (split_last slash f) as (pieces & seg & Hs & Hn & H0 & H1).
  exists seg. unfold label. rewrite Hs, last_snoc.
  split; [reflexivity|]. split; [exact Hn|]. split.
  - destruct pieces as [|p0 pieces]; [left; apply H0; reflexivity|].
    right. apply H1. discriminate.
  - intros Hf. rewrite (split_whole slash f Hf) in Hs.
    destruct pieces as [|p0 [|p1 pieces]]; simpl in Hs; inversion Hs; try reflexivity.
Qed.

End ArtifactViewerFacts.

(* ===================================================================== *)
(** * The properties above on concrete runs *)
(* ===================================================================== *)

Lemma settled_messages_stay_witness :
  ChatWindow.messages
    (fst (ChatWindow.process
            [(5%N, ChatWindow.partial_chunk (JS.lit "lo"));
             (6%N, ChatWindow.final_chunk Runs.reply)] Runs.s1)) !! 0%nat
  = Some (ChatWindow.Message (Some (JS.lit "u-1")) (JS.lit "user") (Some (JS.lit "hi")) false).
Proof.
  apply (settled_messages_stay (B:=unit)); reflexivity.
Defined.

Lemma partial_run_concatenates_witness :
  ChatWindow.messages
    (fst (ChatWindow.process
            [(5%N, ChatWindow.partial_chunk (JS.lit "Hel"));
             (6%N, ChatWindow.partial_chunk (JS.lit "lo"))] Runs.s0))
  = ChatWindow.merge_partial 5%N (JS.lit "Hello") (ChatWindow.messages (fst Runs.s0)).
Proof.
  apply (partial_run_concatenates (B:=unit) 5%N (JS.lit "Hel") [(6%N, JS.lit "lo")] Runs.s0).
  - discriminate.
  - repeat constructor. discriminate.
Defined.

Lemma partial_messages_stay_partial_witness :
  exists m' more,
    ChatWindow.messages
      (fst (ChatWindow.process
              [(5%N, ChatWindow.partial_chunk (JS.lit "lo"));
               (6%N, ChatWindow.final_chunk Runs.reply)] Runs.s1)) !! 1%nat = Some m'
    /\ ChatWindow.__partial_agent m' = true
    /\ ChatWindow.id m' = Some (JS.lit "partial-2")
    /\ ChatWindow.sender m' = JS.lit "agent"
    /\ ChatWindow.or_empty (ChatWindow.text m') = JS.lit "Hel" ++ more.
Proof.
  apply (partial_messages_stay_partial (B:=unit)
           [(5%N, ChatWindow.partial_chunk (JS.lit "lo"));
            (6%N, ChatWindow.final_chunk Runs.reply)] Runs.s1 1%nat
           (ChatWindow.Message (Some (JS.lit "partial-2")) (JS.lit "agent")
                               (Some (JS.lit "Hel")) true));
    reflexivity.
Defined.

Lemma busy_world_well_numbered : Observe.well_numbered MoreRuns.busy_world.
Proof. unfold Observe.well_numbered. simpl. repeat constructor; simpl; lia. Defined.

Lemma mount_cleanup_restores_witness :
  Tauri.listeners
    (snd (ChatWindow.cleanup
            (fst (ChatWindow.mount (ChatWindow.State [] [], MoreRuns.busy_world)))
            (snd (ChatWindow.mount (ChatWindow.State [] [], MoreRuns.busy_world)))))
  = Tauri.listeners MoreRuns.busy_world.
Proof.
  apply (mount_cleanup_restores (ChatWindow.State [] [], MoreRuns.busy_world)).
  exact busy_world_well_numbered.
Defined.


Lemma reply_starts_new_message_witness :
  length
    (ChatWindow.messages
       (fst (ChatWindow.on_stream_chunk 8%N (ChatWindow.partial_chunk (JS.lit "Hi"))
               (ChatWindow.onSend MoreRuns.resolving MoreRuns.chat_props 7%N MoreRuns.typing))))
  = 4%nat.
Proof.
  rewrite (reply_starts_new_message MoreRuns.resolving MoreRuns.chat_props 7%N 8%N
             (JS.lit "Hi") MoreRuns.typing); [reflexivity|reflexivity|discriminate].
Defined.

Lemma onSend_argument_binding_witness :
  Observe.arguments_of "send_message_and_stream"
    (Tauri.trace (snd (ChatWindow.onSend MoreRuns.resolving MoreRuns.chat_props 7%N
                         MoreRuns.typing)))
  = [[("conversation_id", Tauri.VString (JS.lit "localhost:50051"));
      ("sender", Tauri.VString (JS.lit "default"));
      ("text", Tauri.VString (JS.lit "user"))]%string].
Proof.
  apply (onSend_argument_binding MoreRuns.resolving MoreRuns.chat_props 7%N MoreRuns.typing).
  reflexivity.
Defined.

Lemma onFileChange_beyond_limit_witness :
  fst (UploadPanel.onFileChange MoreRuns.resolving 3%N MoreRuns.upload_props
         (Some MoreRuns.small_file) (UploadPanel.State 0 false, Runs.w0))
  = Some JS.RangeError.
Proof.
  rewrite (onFileChange_beyond_limit MoreRuns.resolving 3%N MoreRuns.upload_props
             MoreRuns.small_file (UploadPanel.State 0 false, Runs.w0));
    reflexivity.
Defined.


Lemma to_base64_lossless_witness :
  Base64.decode (JS.lit "TWFuIQ==")
  = UploadPanel.Uint8Array (UploadPanel.content MoreRuns.small_file).
Proof.
  apply (to_base64_lossless 500000%N (UploadPanel.content MoreRuns.small_file)
           (JS.lit "TWFuIQ==")).
  reflexivity.
Defined.

Lemma to_base64_shape_witness :
  length (JS.lit "TWFuIQ==") = 8%nat
  /\ forallb Base64.b64_text_char (JS.lit "TWFuIQ==") = true.
Proof.
  apply (to_base64_shape 500000%N (UploadPanel.content MoreRuns.small_file)
           (JS.lit "TWFuIQ==")).
  reflexivity.
Defined.

(* ===================================================================== *)
(** * The lifecycle under the Agent Manager *)
(* ===================================================================== *)

Section ManagerTransitions.
Import Model AgentManager.

Lemma by_operations_refl st : TaskStore.by_operations st st.
Proof. exists []. reflexivity. Qed.

Lemma by_operations_trans st1 st2 st3 :
  TaskStore.by_operations st1 st2 -> TaskStore.by_operations st2 st3 ->
  TaskStore.by_operations st1 st3.
Proof.
  intros [ops1 ->] [ops2 ->]. exists (ops1 ++ ops2).
  unfold TaskStore.run. rewrite fold_left_app. reflexivity.
Qed.

Lemma by_operations_apply o st : TaskStore.by_operations st (TaskStore.apply o st).
Proof. exists [o]. reflexivity. Qed.

Lemma by_operations_set_agent_state aid s m :
  TaskStore.by_operations (store m) (store (set_agent_state aid s m)).
Proof. unfold set_agent_state. destruct (registry m !! aid); apply by_operations_refl. Qed.

Lemma by_operations_requeue tid m :
  TaskStore.by_operations (store m) (store (requeue tid m)).
Proof.
  unfold requeue.
  destruct (TaskStore.Get tid (store m)) as [t|]; [|apply by_operations_refl].
  destruct (_ || _); [|apply by_operations_refl].
  destruct (max_retries (cfg m) <=? S (TaskStore.retries t)); cbn [store with_store].
  - exact (by_operations_apply (TaskStore.OFail tid agent_unavailable) _).
  - exact (by_operations_apply (TaskStore.OReturnToPending tid) _).
Qed.

Lemma by_operations_lose_agent aid s m :
  TaskStore.by_operations (store m) (store (lose_agent aid s m)).
Proof.
  unfold lose_agent. destruct (held_task aid m).
  - eapply by_operations_trans; [apply (by_operations_set_agent_state aid s)|].
    apply by_operations_requeue.
  - apply by_operations_set_agent_state.
Qed.

Lemma by_operations_release aid m :
  TaskStore.by_operations (store m) (store (release aid m)).
Proof.
  unfold release. repeat case_match; try apply by_operations_refl.
  apply by_operations_set_agent_state.
Qed.

Lemma by_operations_sweep now m :
  TaskStore.by_operations (store m) (store (sweep now m)).
Proof.
  unfold sweep. generalize (seq 0 (length (registry m))). intros ids.
  cut (forall m', TaskStore.by_operations (store m) (store m') ->
         TaskStore.by_operations (store m)
           (store (fold_left
                     (fun acc aid =>
                        match registry acc !! aid with
                        | Some a => if expired now (heartbeat_timeout (cfg acc)) a
                                    then lose_agent aid Unresponsive acc else acc
                        | None => acc
                        end) ids m'))).
  { intros H. apply H, by_operations_refl. }
  induction ids as [|aid ids IH]; intros m' H; [exact H|].
  simpl. apply IH. repeat case_match; try exact H.
  eapply by_operations_trans; [exact H|apply by_operations_lose_agent].
Qed.

Lemma by_operations_assign_one tid aid m :
  TaskStore.by_operations (store m) (store (assign_one tid aid m)).
Proof.
  destruct (assign_one_cases tid aid m) as [->|(t & a & Hg & Hs & _ & ->)];
    [apply by_operations_refl|].
  cbn [store]. exists [TaskStore.OMarkAssigned tid aid].
  unfold TaskStore.run. simpl. unfold TaskStore.MarkAssigned. rewrite Hg, Hs. reflexivity.
Qed.

Lemma by_operations_assign m :
  TaskStore.by_operations (store m) (store (assign m)).
Proof.
  unfold assign.
  apply (assign_loop_inv (fun m' => TaskStore.by_operations (store m) (store m')));
    [|apply by_operations_refl].
  intros m' tid t aid l Hm' _ _ _.
  eapply by_operations_trans; [exact Hm'|apply by_operations_assign_one].
Qed.

Lemma by_operations_finish o tid r m :
  (forall st, r = inr st -> st = TaskStore.apply o (store m)) ->
  TaskStore.by_operations (store m) (store (snd (finish tid r m))).
Proof.
  intros Hr. unfold finish. destruct r as [e|st]; [apply by_operations_refl|].
  assert (H : TaskStore.by_operations (store m) st)
    by (rewrite (Hr st eq_refl); apply by_operations_apply).
  destruct (default true _); cbn [snd]; [exact H|].
  eapply by_operations_trans; [|apply by_operations_assign].
  eapply by_operations_trans; [|apply by_operations_release]. exact H.
Qed.

(** The manager changes the store through its operations only. *)
Lemma by_operations_step r m :
  TaskStore.by_operations (store m) (store (step r m)).
Proof.
  unfold step.
  destruct r as [conv cap' inp|cap' now|aid now|aid|now|tid'|tid' p|tid' [res|e]|tid'|tid'|tid'];
    cbn [handle].
  - cbn [TaskStore.Submit snd].
    eapply by_operations_trans; [|apply by_operations_assign]. cbn [store with_store].
    exact (by_operations_apply (TaskStore.OSubmit conv cap' inp) _).
  - destruct (Registry.Register _ _ _ _) as [e|[aid reg]]; [apply by_operations_refl|].
    cbn [snd]. exact (by_operations_assign (with_registry reg m)).
  - destruct (Registry.Heartbeat _ _ _); apply by_operations_refl.
  - cbn [snd]. eapply by_operations_trans; [|apply by_operations_assign].
    apply by_operations_lose_agent.
  - cbn [snd]. eapply by_operations_trans; [|apply by_operations_assign].
    apply by_operations_sweep.
  - destruct (TaskStore.MarkRunning tid' (store m)) as [e|st] eqn:Hm;
      [apply by_operations_refl|].
    cbn [snd store with_store]. rewrite (inr_settle (store m) _ _ Hm).
    exact (by_operations_apply (TaskStore.OMarkRunning tid') _).
  - cbn [snd store with_store].
    exact (by_operations_apply (TaskStore.OUpdateProgress tid' p) _).
  - apply (by_operations_finish (TaskStore.OComplete tid' res)).
    intros st Hst. cbn [TaskStore.apply]. rewrite Hst. reflexivity.
  - apply (by_operations_finish (TaskStore.OFail tid' e)).
    intros st Hst. cbn [TaskStore.apply]. rewrite Hst. reflexivity.
  - apply (by_operations_finish (TaskStore.OCancel tid')).
    intros st Hst. cbn [TaskStore.apply]. rewrite Hst. reflexivity.
  - repeat case_match; try apply by_operations_refl; cbn [snd];
      (eapply by_operations_trans; [|apply by_operations_assign]).
    + apply by_operations_lose_agent.
    + apply by_operations_requeue.
  - assert (H1 : TaskStore.by_operations (store m)
                   (TaskStore.settle (store m) (TaskStore.Fail tid' task_timeout (store m))))
      by exact (by_operations_apply (TaskStore.OFail tid' task_timeout) _).
    repeat case_match; try apply by_operations_refl; cbn [snd]; [|exact H1].
    eapply by_operations_trans; [exact H1|].
    eapply by_operations_trans; [|apply by_operations_assign].
    apply (by_operations_lose_agent _ _ (with_store _ m)).
Qed.

Lemma by_operations_manager_run rs m :
  TaskStore.by_operations (store m) (store (run rs m)).
Proof.
  revert m. induction rs as [|r rs IH]; intros m; [apply by_operations_refl|].
  simpl. eapply by_operations_trans; [apply by_operations_step|apply IH].
Qed.

(** A sequence of operations moves a task along a path of edges. *)
Lemma run_along_edges ops st tid a b :
  TaskStore.state_of tid st = Some a ->
  TaskStore.state_of tid (TaskStore.run ops st) = Some b ->
  rtc (fun x y => TaskStore.store_edge x y = true) a b.
Proof.
  revert st a. induction ops as [|o ops IH]; intros st a Ha Hb.
  - simpl in Hb. assert (a = b) by congruence. subst. apply rtc_refl.
  - simpl in Hb.
    apply state_of_Some in Ha. destruct Ha as (t & Hg & <-).
    destruct (apply_task o st tid t Hg) as (t' & Hg' & _ & Hst).
    assert (Ha' : TaskStore.state_of tid (TaskStore.apply o st) = Some (TaskStore.state t'))
      by (apply state_of_Some; exists t'; auto).
    specialize (IH _ _ Ha' Hb).
    destruct Hst as [E|He]; [rewrite <- E; exact IH|]. eapply rtc_l; [exact He|exact IH].
Qed.

(** C1, as the operations have it: one Task Store operation keeps the
    state of a task or moves it along Pending to Assigned, Assigned to
    Running, Running or Assigned to Succeeded or Failed, Assigned or
    Running back to Pending (reassignment), or from a non-terminal state
    to Cancelled.  The Agent Manager changes the store by these
    operations only, so over every run of the manager, as over every
    sequence of operations, a task moves along a path of these edges and
    no other transition is reachable. *)
Theorem store_transitions_along_edges :
  (forall o st tid a b,
      TaskStore.state_of tid st = Some a ->
      TaskStore.state_of tid (TaskStore.apply o st) = Some b ->
      a = b \/ TaskStore.store_edge a b = true)
  /\ (forall r m, TaskStore.by_operations (store m) (store (step r m)))
  /\ (forall ops st tid a b,
        TaskStore.state_of tid st = Some a ->
        TaskStore.state_of tid (TaskStore.run ops st) = Some b ->
        rtc (fun x y => TaskStore.store_edge x y = true) a b)
  /\ (forall rs m tid a b,
        task_state_of tid m = Some a ->
        task_state_of tid (run rs m) = Some b ->
        rtc (fun x y => TaskStore.store_edge x y = true) a b).
Proof.
  split; [|split; [|split]].
  - intros o st tid a b Ha Hb.
    apply state_of_Some in Ha. destruct Ha as [t [Hg Ha]].
    apply state_of_Some in Hb. destruct Hb as [t' [Hg' Hb]].
    destruct (apply_task o st tid t Hg) as [t'' [Hg'' [_ Hst]]].
    assert (t'' = t') by congruence. subst t'' a b.
    destruct Hst as [->|H]; auto.
  - apply by_operations_step.
  - apply run_along_edges.
  - intros rs m tid a b Ha Hb.
    destruct (by_operations_manager_run rs m) as [ops Hops].
    unfold task_state_of in *. rewrite Hops in Hb.
    eapply run_along_edges; eassumption.
Qed.

End ManagerTransitions.

(** C1 does not hold as stated: [Complete] on an Assigned task moves it
    to Succeeded without passing through Running, and the loss of its
    agent takes a Running task back to Pending; neither is one of the
    listed edges. *)
Lemma assigned_completes_directly :
  TaskStore.state_of 0 Scenarios.assigned_store = Some Model.Assigned
  /\ TaskStore.state_of 0 (TaskStore.apply (TaskStore.OComplete 0 "R") Scenarios.assigned_store)
     = Some Model.Succeeded
  /\ TaskStore.listed_edge Model.Assigned Model.Succeeded = false
  /\ AgentManager.task_state_of 0 Scenarios.running_manager = Some Model.Running
  /\ AgentManager.task_state_of 0
       (AgentManager.step (AgentManager.Deregister 0) Scenarios.running_manager)
     = Some Model.Pending
  /\ TaskStore.listed_edge Model.Running Model.Pending = false.
Proof. repeat split. Qed.

Lemma store_transitions_along_edges_witness :
  (Model.Assigned = Model.Succeeded
   \/ TaskStore.store_edge Model.Assigned Model.Succeeded = true)
  /\ rtc (fun x y => TaskStore.store_edge x y = true) Model.Running Model.Pending.
Proof.
  destruct store_transitions_along_edges as (H1 & _ & _ & H4). split.
  - apply (H1 (TaskStore.OComplete 0 "R") Scenarios.assigned_store 0); reflexivity.
  - apply (H4 [AgentManager.Deregister 0] Scenarios.running_manager 0); reflexivity.
Defined.
